(** * stl-parser: the ASCII STL parser of package [stl]

    A shallow embedding of [internal/stl] (the parser, [CountTriangles],
    the [Triangle] record), of [internal/file.Reader] and of the [Run]
    function of the count command, followed by the properties of the
    parser that the specification states and by further properties read
    off the code.

    Go values are modelled as follows.
    - [[]byte] is [list byte]; a Go [string] is a Rocq [string].
    - [int] is [Z] (no parse reaches the 64-bit bound: the line counter
      grows by one per line read).
    - An [error] is a value of the inductive [error]; the Go [nil] error is
      [None : option error].
    - A [*bufio.Scanner] is the list of tokens it will still deliver
      together with the error it reports once they are exhausted.
    - The package-level variables [name] and [triangles] are the record
      [globals], threaded through every function that touches them.
    - The two functions of the Go standard library the parser relies on,
      [bufio.ScanWords] and [strconv.ParseFloat], are the fields of the
      class [Runtime]; every general theorem holds for any instance. *)

From Stdlib Require Import List String Ascii ZArith Lia Bool Arith.
From Stdlib Require Import Strings.Byte.
From Stdlib Require Import DecimalString.
Import ListNotations.

Set Warnings "-register-all".

Local Open Scope string_scope.
Local Open Scope list_scope.
Local Open Scope Z_scope.

(** ** Go runtime values *)

Module Go.

(** Error values: [errors.New], the two [fmt.Errorf] formats the parser
    uses, and the result of [errors.Join]. *)
Inductive error : Type :=
| New (text : string)
| Errorf_line (line : Z) (wrapped : error)       (* "%d: %w" *)
| Errorf_ident (wrapped : error) (ident : string) (* "%w: %s" *)
| Joined (errs : list error).

(** [errors.Join(errs...)]: nil values are discarded; the result is nil
    when nothing is left. *)
Fixpoint non_nil (errs : list (option error)) : list error :=
  match errs with
  | [] => []
  | Some e :: rest => e :: non_nil rest
  | None :: rest => non_nil rest
  end.

Definition errors_Join (errs : list (option error)) : option error :=
  match non_nil errs with
  | [] => None
  | es => Some (Joined es)
  end.

(** A [bufio.Scanner]: [pending] are the tokens the following calls of
    [Scan] deliver, [failure] is what [Err] returns once [Scan] has
    returned false. *)
Record Scanner (A : Type) : Type :=
  { pending : list A; failure : option error }.
Arguments pending {A} _.
Arguments failure {A} _.

(** [bufio.NewScanner] over an in-memory reader whose tokens are [toks]:
    such a scanner never fails. *)
Definition NewScanner {A : Type} (toks : list A) : Scanner A :=
  {| pending := toks; failure := None |}.

(** [Scan]: the token delivered, if any, and the scanner afterwards. *)
Definition Scan {A : Type} (s : Scanner A) : option A * Scanner A :=
  match pending s with
  | x :: rest => (Some x, {| pending := rest; failure := failure s |})
  | [] => (None, s)
  end.

(** [%d] of [fmt]: the decimal digits, with a minus sign when negative. *)
Definition fmt_d (n : Z) : string := NilZero.string_of_int (Z.to_int n).

Definition newline : string := String (ascii_of_nat 10) EmptyString.

(** [err.Error()]: the text of [errors.New], the two formats of
    [fmt.Errorf], and for a joined error the texts of its parts separated
    by newlines. *)
Fixpoint Error (e : error) : string :=
  match e with
  | New text => text
  | Errorf_line line wrapped => (fmt_d line ++ ": " ++ Error wrapped)%string
  | Errorf_ident wrapped ident => (Error wrapped ++ ": " ++ ident)%string
  | Joined errs =>
      (fix texts (l : list error) : string :=
         match l with
         | [] => EmptyString
         | [e1] => Error e1
         | e1 :: rest => (Error e1 ++ newline ++ texts rest)%string
         end) errs
  end.

(** [bytes.HasPrefix]. *)
Fixpoint HasPrefix (s prefix : list byte) {struct prefix} : bool :=
  match prefix, s with
  | [], _ => true
  | _ :: _, [] => false
  | a :: prefix', b :: s' => Byte.eqb a b && HasPrefix s' prefix'
  end.

End Go.

Import Go.

(** The part of the Go standard library the parser calls and whose code is
    not part of the repository. *)
Class Runtime : Type :=
  { (** the values of Go's [float32] *)
    float32 : Type;
    (** the zero value of [float32] *)
    float32_zero : float32;
    (** [strconv.ParseFloat(s, 32)] followed by the conversion to
        [float32]; [None] when it returns an error *)
    ParseFloat32 : string -> option float32;
    (** the tokens [bufio.ScanWords] delivers on one line *)
    ScanWords : list byte -> list string }.

(** ** triangle.go *)

Section Stl.

Context {rt : Runtime}.

Definition vec3 : Type := (float32 * float32 * float32)%type.

Record Triangle : Type :=
  { Normal : vec3;
    Vertices : vec3 * vec3 * vec3;
    Attr : Z }.

Definition vec3_zero : vec3 := (float32_zero, float32_zero, float32_zero).

(** [var t Triangle]: the zero value. *)
Definition Triangle_zero : Triangle :=
  {| Normal := vec3_zero;
     Vertices := (vec3_zero, vec3_zero, vec3_zero);
     Attr := 0 |}.

(** A pointer into the local triangle [t] of [Parse]: how to read and how
    to store through it. *)
Record ref (A : Type) : Type :=
  { load : Triangle -> A; store : A -> Triangle -> Triangle }.
Arguments load {A} _ _.
Arguments store {A} _ _ _.

(** [&t.Normal]. *)
Definition addr_Normal : ref vec3 :=
  {| load := Normal;
     store := fun v t =>
       {| Normal := v; Vertices := Vertices t; Attr := Attr t |} |}.

Definition get3 {A : Type} (i : nat) (v : A * A * A) : A :=
  let '(a, b, c) := v in
  match i with
  | O => a
  | S O => b
  | _ => c
  end.

Definition upd3 {A : Type} (i : nat) (x : A) (v : A * A * A) : A * A * A :=
  let '(a, b, c) := v in
  match i with
  | O => (x, b, c)
  | S O => (a, x, c)
  | _ => (a, b, x)
  end.

(** [&t.Vertices[i]]. *)
Definition addr_Vertices (i : nat) : ref vec3 :=
  {| load := fun t => get3 i (Vertices t);
     store := fun v t =>
       {| Normal := Normal t;
          Vertices := upd3 i v (Vertices t);
          Attr := Attr t |} |}.

(** [&pt[i]] for [pt *[3]float32]. *)
Definition elem (pt : ref vec3) (i : nat) : ref float32 :=
  {| load := fun t => get3 i (load pt t);
     store := fun x t => store pt (upd3 i x (load pt t)) t |}.

(** ** The keyword tables *)

Definition idNone : Z := 0.
Definition idSolid : Z := Z.shiftl 1 1.
Definition idFacet : Z := Z.shiftl 1 2.
Definition idNormal : Z := Z.shiftl 1 3.
Definition idOuter : Z := Z.shiftl 1 4.
Definition idLoop : Z := Z.shiftl 1 5.
Definition idVertex : Z := Z.shiftl 1 6.
Definition idEndloop : Z := Z.shiftl 1 7.
Definition idEndfacet : Z := Z.shiftl 1 8.
Definition idEndsolid : Z := Z.shiftl 1 9.

(** A compiled regular expression, by the strings it matches.  Go's [^]
    and [$] anchor at the two ends of the text, so ["^solid$"] matches
    exactly the string [solid]. *)
Definition Regexp : Type := string -> bool.

Definition exactly (kw : string) : Regexp := fun w => String.eqb w kw.

Definition identRegexps (ident : Z) : option Regexp :=
  if Z.eqb ident idSolid then Some (exactly "solid")
  else if Z.eqb ident idFacet then Some (exactly "facet")
  else if Z.eqb ident idNormal then Some (exactly "normal")
  else if Z.eqb ident idOuter then Some (exactly "outer")
  else if Z.eqb ident idLoop then Some (exactly "loop")
  else if Z.eqb ident idVertex then Some (exactly "vertex")
  else if Z.eqb ident idEndloop then Some (exactly "endloop")
  else if Z.eqb ident idEndfacet then Some (exactly "endfacet")
  else if Z.eqb ident idEndsolid then Some (exactly "endsolid")
  else if Z.eqb ident (Z.lor idFacet idEndsolid)
       then Some (fun w => exactly "facet" w || exactly "endsolid" w)
  else None.

(** [re.MatchString(w)].  Every call of the parser looks up one of the ten
    keys of the table; a missing key (a nil [*Regexp]) matches nothing
    here. *)
Definition MatchString (re : option Regexp) (w : string) : bool :=
  match re with
  | Some r => r w
  | None => false
  end.

(** The map [idents]; a missing key yields the empty string. *)
Definition idents (ident : Z) : string :=
  if Z.eqb ident idSolid then "solid"
  else if Z.eqb ident idFacet then "facet"
  else if Z.eqb ident idNormal then "normal"
  else if Z.eqb ident idOuter then "outer"
  else if Z.eqb ident idLoop then "loop"
  else if Z.eqb ident idVertex then "vertex"
  else if Z.eqb ident idEndloop then "endloop"
  else if Z.eqb ident idEndfacet then "endfacet"
  else if Z.eqb ident idEndsolid then "endsolid"
  else "".

Definition ErrEOF : error := New "File is empty".
Definition quoted (s : string) : string :=
  String (ascii_of_nat 34) (s ++ String (ascii_of_nat 34) EmptyString)%string.
Definition ErrInvalidExpectedToken : error :=
  New (quoted "facet" ++ " or " ++ quoted "endsolid" ++ " expected")%string.
Definition ErrInvalidSintax : error := New "Invalid sintax".
Definition ErrInvalidFloat : error := New "Invalid float".
Definition errInvalidToken : error := New "Invalid token".

Definition expectedASCIIHeaderPrefix : list byte :=
  list_byte_of_string "solid ".

(** ** extractASCIIString *)

(** The index loop [for i < len(byteData) && byteData[i] < 128 &&
    byteData[i] != 0 { i++ }], run from index [i]; [fuel] bounds the number
    of iterations and [length byteData] is always enough. *)
Fixpoint extract_index (fuel : nat) (byteData : list byte) (i : nat) : nat :=
  match fuel with
  | O => i
  | S fuel' =>
      match nth_error byteData i with
      | Some b =>
          if (Byte.to_N b <? 128)%N && negb (Byte.to_N b =? 0)%N
          then extract_index fuel' byteData (S i)
          else i
      | None => i
      end
  end.

Definition extractASCIIString (byteData : list byte) : string :=
  let i := extract_index (List.length byteData) byteData 0 in
  string_of_list_byte (firstn i byteData).

(** ** The parser *)

Record parser : Type :=
  { line : Z;
    errors : option error;
    currentWord : string;
    currentLine : list byte;
    eof : bool;
    lineScanner : Scanner (list byte);
    wordScanner : Scanner string;
    HeaderError : bool;
    TrianglesSkipped : bool;
    ErrorText : string }.

(** The package-level variables of count.go. *)
Record globals : Type :=
  { name : string;
    triangles : list Triangle }.

Definition set_errors (e : option error) (p : parser) : parser :=
  {| line := line p; errors := e; currentWord := currentWord p;
     currentLine := currentLine p; eof := eof p;
     lineScanner := lineScanner p; wordScanner := wordScanner p;
     HeaderError := HeaderError p; TrianglesSkipped := TrianglesSkipped p;
     ErrorText := ErrorText p |}.

Definition set_HeaderError (b : bool) (p : parser) : parser :=
  {| line := line p; errors := errors p; currentWord := currentWord p;
     currentLine := currentLine p; eof := eof p;
     lineScanner := lineScanner p; wordScanner := wordScanner p;
     HeaderError := b; TrianglesSkipped := TrianglesSkipped p;
     ErrorText := ErrorText p |}.

Definition set_TrianglesSkipped (b : bool) (p : parser) : parser :=
  {| line := line p; errors := errors p; currentWord := currentWord p;
     currentLine := currentLine p; eof := eof p;
     lineScanner := lineScanner p; wordScanner := wordScanner p;
     HeaderError := HeaderError p; TrianglesSkipped := b;
     ErrorText := ErrorText p |}.

(** [p.currentWord = w] with the word scanner advanced to [ws]. *)
Definition take_word (w : string) (ws : Scanner string) (p : parser)
  : parser :=
  {| line := line p; errors := errors p; currentWord := w;
     currentLine := currentLine p; eof := eof p;
     lineScanner := lineScanner p; wordScanner := ws;
     HeaderError := HeaderError p; TrianglesSkipped := TrianglesSkipped p;
     ErrorText := ErrorText p |}.

(** [p.currentLine = nil; p.currentWord = ""; p.eof = true]. *)
Definition set_eof (p : parser) : parser :=
  {| line := line p; errors := errors p; currentWord := "";
     currentLine := []; eof := true;
     lineScanner := lineScanner p; wordScanner := wordScanner p;
     HeaderError := HeaderError p; TrianglesSkipped := TrianglesSkipped p;
     ErrorText := ErrorText p |}.

(** The first four statements of [nextLine] after a successful [Scan]:
    the line read is [l] and the line scanner is left as [ls]. *)
Definition take_line (l : list byte) (ls : Scanner (list byte)) (p : parser)
  : parser :=
  {| line := line p + 1; errors := errors p; currentWord := currentWord p;
     currentLine := l; eof := eof p;
     lineScanner := ls; wordScanner := NewScanner (ScanWords l);
     HeaderError := HeaderError p; TrianglesSkipped := TrianglesSkipped p;
     ErrorText := ErrorText p |}.

(** [p.errors = errors.Join(fmt.Errorf("%d: %w", p.line, msg))]: the value
    joined is the new error alone. *)
Definition addError (msg : error) (p : parser) : parser :=
  set_errors (errors_Join [Some (Errorf_line (line p) msg)]) p.

(** [nextWord], with the call of [nextLine] left open as [nextLine_k]. *)
Definition nextWord_with (nextLine_k : parser -> bool * parser) (p : parser)
  : bool * parser :=
  if eof p then (false, p)
  else
    match Scan (wordScanner p) with
    | (Some w, ws) => (true, take_word w ws p)
    | (None, _) =>
        match failure (wordScanner p) with
        | None => nextLine_k p
        | Some e => (false, set_eof (addError e p))
        end
    end.

(** [nextLine] when the line scanner still holds [ls]: the recursion of
    [nextLine] and [nextWord] through each other runs down the lines that
    are left. *)
Fixpoint nextLine_from (ls : list (list byte)) (p : parser) {struct ls}
  : bool * parser :=
  match ls with
  | l :: ls' =>
      let sc := {| pending := ls'; failure := failure (lineScanner p) |} in
      nextWord_with (nextLine_from ls') (take_line l sc p)
  | [] =>
      let p1 := match failure (lineScanner p) with
                | Some e => addError e p
                | None => p
                end in
      (false, set_eof p1)
  end.

Definition nextLine (p : parser) : bool * parser :=
  nextLine_from (pending (lineScanner p)) p.

Definition nextWord (p : parser) : bool * parser :=
  nextWord_with nextLine p.

Definition isCurrentTokenIdent (ident : Z) (p : parser) : bool :=
  MatchString (identRegexps ident) (currentWord p).

Definition consumeToken (ident : Z) (p : parser) : bool * parser :=
  if negb (MatchString (identRegexps ident) (currentWord p))
  then (false, addError (Errorf_ident errInvalidToken (idents ident)) p)
  else (true, snd (nextWord p)).

(** A step of the facet grammar: it runs on the parser and on the triangle
    under construction and reports success. *)
Definition step : Type := parser -> Triangle -> bool * parser * Triangle.

(** Go's [a && b] on two such calls: [b] runs only when [a] succeeded. *)
Definition andthen (a b : step) : step :=
  fun p t =>
    let '(ok, p1, t1) := a p t in
    if ok then b p1 t1 else (false, p1, t1).

Notation "a &&& b" := (andthen a b) (at level 40, left associativity).

(** [p.consumeToken(ident)] as a step: the triangle is not touched. *)
Definition token (ident : Z) : step :=
  fun p t => let '(ok, p1) := consumeToken ident p in (ok, p1, t).

Definition parseFloat32 (f : ref float32) : step :=
  fun p t =>
    if eof p then (false, p, t)
    else
      match ParseFloat32 (currentWord p) with
      | None => (false, addError ErrInvalidFloat p, t)
      | Some f64 => (true, snd (nextWord p), store f f64 t)
      end.

Definition parsePoint (pt : ref vec3) : step :=
  parseFloat32 (elem pt 0) &&&
  parseFloat32 (elem pt 1) &&&
  parseFloat32 (elem pt 2).

Definition parseFacet : step :=
  token idFacet &&&
  token idNormal &&& parsePoint addr_Normal &&&
  token idOuter &&& token idLoop &&&
  token idVertex &&& parsePoint (addr_Vertices 0) &&&
  token idVertex &&& parsePoint (addr_Vertices 1) &&&
  token idVertex &&& parsePoint (addr_Vertices 2) &&&
  token idEndloop &&&
  token idEndfacet.

(** A Go [for] loop: [body] either continues with a new state or leaves
    the loop with a result; [None] when [fuel] iterations were not
    enough. *)
Fixpoint loop {St R : Type} (fuel : nat) (body : St -> St + R) (s : St)
  : option R :=
  match fuel with
  | O => None
  | S fuel' =>
      match body s with
      | inl s' => loop fuel' body s'
      | inr r => Some r
      end
  end.

(** The words the two scanners still hold. *)
Definition remaining (p : parser) : nat :=
  (List.length (pending (wordScanner p)) +
   List.length (flat_map ScanWords (pending (lineScanner p))))%nat.

(** One iteration of the loop of [skipToToken]. *)
Definition skipToToken_iter (ident : Z) (p : parser) : parser + Z * parser :=
  if MatchString (identRegexps ident) (currentWord p) then
    if Z.eqb ident (Z.lor idFacet idEndsolid) then
      if MatchString (identRegexps idFacet) (currentWord p)
      then inr (idFacet, p)
      else inr (idEndsolid, p)
    else inr (ident, p)
  else
    let '(more, p1) := nextWord p in
    if negb more then inr (idNone, p1) else inl p1.

(** [skipToToken]: the loop run with one iteration more than there are
    words left, which [skipToToken_terminates] shows to be enough. *)
Definition skipToToken (ident : Z) (p : parser) : Z * parser :=
  match loop (S (remaining p)) (skipToToken_iter ident) p with
  | Some r => r
  | None => (idNone, p)
  end.

Definition append_triangle (t : Triangle) (g : globals) : globals :=
  {| name := name g; triangles := triangles g ++ [t] |}.

Definition set_name (n : string) (g : globals) : globals :=
  {| name := n; triangles := triangles g |}.

(** One iteration of [TriangleLoop], the loop of [Parse]: [inr] is the
    exit, by the loop condition or by [break TriangleLoop]. *)
Definition TriangleLoop_iter (s : parser * globals)
  : parser * globals + parser * globals :=
  let '(p, g) := s in
  if negb (eof p) && negb (isCurrentTokenIdent idEndsolid p) then
    let '(leave, p1) :=
      if negb (isCurrentTokenIdent idFacet p) then
        let '(found, p0) :=
          skipToToken (Z.lor idFacet idEndsolid)
                      (addError ErrInvalidExpectedToken p) in
        (Z.eqb found idEndsolid || Z.eqb found idNone, p0)
      else (false, p) in
    if leave then inr (p1, g)
    else
      let '(ok, p2, t) := parseFacet p1 Triangle_zero in
      if ok then inl (p2, append_triangle t g)
      else
        inl (snd (skipToToken (Z.lor idFacet idEndsolid)
                              (set_TrianglesSkipped true p2)), g)
  else inr (p, g).

Definition budget (p : parser) : nat := S (S (remaining p)).

(** The loop of [Parse] run with [budget p] iterations, which
    [TriangleLoop_terminates] shows to be enough. *)
Definition TriangleLoop (p : parser) (g : globals) : parser * globals :=
  match loop (budget p) TriangleLoop_iter (p, g) with
  | Some r => r
  | None => (p, g)
  end.

Definition parseASCIIHeaderLine (p : parser) (g : globals)
  : bool * parser * globals :=
  let '(success, p1, g1) :=
    if eof p then (false, addError ErrEOF p, g)
    else if negb (HasPrefix (currentLine p) expectedASCIIHeaderPrefix)
    then (false, addError ErrInvalidSintax p, g)
    else
      (true, p,
       set_name (extractASCIIString
                   (skipn (List.length expectedASCIIHeaderPrefix)
                          (currentLine p))) g) in
  (success, snd (nextLine p1), g1).

(** [Parse] up to the end of the triangle loop (the [if]/[else] of its
    body). *)
Definition Parse_facets (p : parser) (g : globals) : parser * globals :=
  if eof p then (addError ErrEOF (set_HeaderError true p), g)
  else
    let '(ok, p1, g1) := parseASCIIHeaderLine p g in
    TriangleLoop (set_HeaderError (negb ok) p1) g1.

(** [!p.HeaderError && !p.TrianglesSkipped && p.consumeToken(idEndsolid)]. *)
Definition terminator_check (p : parser) : bool * parser :=
  if negb (HeaderError p) then
    if negb (TrianglesSkipped p) then consumeToken idEndsolid p
    else (false, p)
  else (false, p).

Definition Parse (p : parser) (g : globals) : bool * parser * globals :=
  let '(p1, g1) := Parse_facets p g in
  let '(success, p2) := terminator_check p1 in
  (success, p2, g1).

(** [newParser].  The zero value of [wordScanner] is a nil pointer; it is
    read only after [nextLine] has replaced it, so an exhausted scanner
    stands for it. *)
Definition newParser (lines : Scanner (list byte)) : parser :=
  snd (nextLine
         {| line := 0; errors := None; currentWord := "";
            currentLine := []; eof := false;
            lineScanner := lines; wordScanner := NewScanner [];
            HeaderError := false; TrianglesSkipped := false;
            ErrorText := "" |}).

(** ** internal/file and count.go *)

(** What [os.Open] followed by a line scanner gives for a path: the error
    of the open, or the lines of the file as [bufio.ScanLines] delivers
    them. *)
Definition FileSystem : Type := string -> Scanner (list byte) + error.

(** [file.Reader]: the scanner with a nil error, or the error of the open
    (with a nil scanner).  The [close] function it also returns has no
    effect on the values modelled here. *)
Definition Reader (fs : FileSystem) (filePath : string)
  : Scanner (list byte) + error :=
  match fs filePath with
  | inr err => inr err
  | inl fileScanner => inl fileScanner
  end.

(** The state of the package variables when the program starts. *)
Definition globals_init : globals := {| name := ""; triangles := [] |}.

Definition CountTriangles (fs : FileSystem) (filepath : string) (g : globals)
  : (string * Z * option error) * globals :=
  match Reader fs filepath with
  | inr err => (("", -1, Some err), g)
  | inl scanner =>
      let parse := newParser scanner in
      let '(_, _, g1) := Parse parse g in
      ((name g1, Z.of_nat (List.length (triangles g1)), None), g1)
  end.

(** ** cmd/count.go *)

(** The [Run] function of [countCmd]: what it writes to standard output,
    one string per call of [fmt.Println] or [fmt.Printf], and the package
    variables afterwards.  [None] is the panic of [args[0]] on an empty
    argument list. *)
Definition countCmd_Run (fs : FileSystem) (args : list string) (g : globals)
  : option (list string * globals) :=
  match args with
  | [] => None
  | arg0 :: _ =>
      let '((nm, count, err), g1) := CountTriangles fs arg0 g in
      let printed :=
        match err with
        | Some e => [(Error e ++ newline)%string]
        | None => []
        end in
      Some (printed ++
            [(nm ++ " has " ++ fmt_d count ++ " triangles " ++ newline)%string],
            g1)
  end.

End Stl.

Arguments load {rt A} _ _.
Arguments store {rt A} _ _ _.

(** ** A runtime for concrete runs

    The behaviour of the two library functions on the inputs of the
    examples below: lines of 7-bit bytes, on which [bufio.ScanWords] splits
    at the six ASCII white-space bytes, and tokens that are either an
    unsigned decimal integer of at most seven digits, which
    [strconv.ParseFloat] accepts and which [float32] represents exactly, or
    a word of letters other than a spelling of infinity or NaN, which it
    rejects.  A [float32] is represented by the integer it equals. *)

Module Ascii7.

Definition is_space (b : byte) : bool :=
  let n := Byte.to_N b in
  ((n =? 32) || ((9 <=? n) && (n <=? 13)))%N.

(** [word] holds, in reverse, the bytes of the word being read. *)
Fixpoint split_words (line : list byte) (word : list byte) : list string :=
  match line with
  | [] =>
      match word with
      | [] => []
      | _ => [string_of_list_byte (rev word)]
      end
  | b :: rest =>
      if is_space b then
        match word with
        | [] => split_words rest []
        | _ => string_of_list_byte (rev word) :: split_words rest []
        end
      else split_words rest (b :: word)
  end.

Definition digit (c : ascii) : option Z :=
  let n := Z.of_nat (nat_of_ascii c) in
  if (48 <=? n) && (n <=? 57) then Some (n - 48) else None.

Fixpoint decimal_from (acc : Z) (s : string) : option Z :=
  match s with
  | EmptyString => Some acc
  | String c rest =>
      match digit c with
      | Some d => decimal_from (10 * acc + d) rest
      | None => None
      end
  end.

Definition decimal (s : string) : option Z :=
  match s with
  | EmptyString => None
  | _ => if (String.length s <=? 7)%nat then decimal_from 0 s else None
  end.

#[export] Instance runtime : Runtime :=
  {| float32 := Z;
     float32_zero := 0;
     ParseFloat32 := decimal;
     ScanWords := fun l => split_words l [] |}.

(** A file given by its lines, read without failure. *)
Definition file (lines : list string) : Scanner (list byte) :=
  NewScanner (map list_byte_of_string lines).

(** A solid with one facet, one blank line inside it. *)
Definition cube_file : Scanner (list byte) :=
  file ["solid cube";
        "facet normal 0 0 1";
        " outer loop";
        "  vertex 0 0 0";
        "  vertex 1 0 0";
        "";
        "  vertex 0 1 0";
        " endloop";
        "endfacet";
        "endsolid cube"].

(** Two lines, neither a header nor a facet. *)
Definition garbage_file : Scanner (list byte) := file ["foo"; "bar"].

Definition empty_file : Scanner (list byte) := file [].

(** The first facet spells [loop] as [lop]; a well-formed one follows. *)
Definition lop_file : Scanner (list byte) :=
  file ["solid x";
        "facet normal 0 0 1";
        "outer lop";
        "vertex 0 0 0";
        "vertex 1 0 0";
        "vertex 0 1 0";
        "endloop";
        "endfacet";
        "facet normal 0 0 1 outer loop";
        "vertex 0 0 0 vertex 1 0 0 vertex 0 1 0";
        "endloop endfacet";
        "endsolid x"].

(** The first vertex of the only facet has the coordinate [a]. *)
Definition letter_file : Scanner (list byte) :=
  file ["solid x";
        "facet normal 0 0 1";
        "outer loop";
        "vertex a 0 0";
        "vertex 1 0 0";
        "vertex 0 1 0";
        "endloop";
        "endfacet";
        "endsolid x"].

(** A header whose name holds the byte 0x80 after [ab]. *)
Definition high_byte_file : Scanner (list byte) :=
  NewScanner
    [list_byte_of_string "solid ab" ++ [Byte.x80] ++
     list_byte_of_string "cd"].

(** The triangle with the given normal and vertices. *)
Definition tri (n a b c : Z * Z * Z) : @Triangle runtime :=
  @Build_Triangle runtime n (a, b, c) 0.

(** Two lines of white space. *)
Definition blank_file : Scanner (list byte) := file ["   "; " "].

(** The one-facet solid without its [endsolid] line. *)
Definition unterminated_file : Scanner (list byte) :=
  file ["solid cube";
        "facet normal 0 0 1";
        " outer loop";
        "  vertex 0 0 0";
        "  vertex 1 0 0";
        "  vertex 0 1 0";
        " endloop";
        "endfacet"].

(** A facet that ends, with the input, where the third coordinate of the
    normal is due. *)
Definition cut_file : Scanner (list byte) :=
  file ["solid x"; "facet normal 0 0"].

(** Two stray words between the header and [endsolid]. *)
Definition stray_file : Scanner (list byte) :=
  file ["solid x"; "hello world"; "endsolid"].

(** The one-facet solid with all the words after the header on one line. *)
Definition cube_one_line : Scanner (list byte) :=
  file ["solid cube";
        "facet normal 0 0 1 outer loop vertex 0 0 0 vertex 1 0 0 vertex 0 1 0 endloop endfacet endsolid cube"].



(** The one-facet solid with a first line that lacks the prefix. *)
Definition headless_file : Scanner (list byte) :=
  file ["cube";
        "facet normal 0 0 1";
        " outer loop";
        "  vertex 0 0 0";
        "  vertex 1 0 0";
        "  vertex 0 1 0";
        " endloop";
        "endfacet";
        "endsolid cube"].

(** A file system on which every path opens the file [f]. *)
Definition disk (f : Scanner (list byte)) : FileSystem := fun _ => inl f.

(** A file system on which no path can be opened. *)
Definition no_disk : FileSystem :=
  fun _ => inr (New "open: no such file or directory").

End Ascii7.

(** ** The token view of a parser state *)

Section Cursor.

Context {rt : Runtime}.

(** The words of the lines that follow line [n], each with the number of
    its line. *)
Fixpoint numbered (n : Z) (ls : list (list byte)) : list (Z * string) :=
  match ls with
  | [] => []
  | l :: ls' => map (pair (n + 1)) (ScanWords l) ++ numbered (n + 1) ls'
  end.

(** The tokens after the current word: the rest of the current line, then
    the lines not yet read (which a failed word scanner never reaches). *)
Definition upcoming (p : parser) : list (Z * string) :=
  map (pair (line p)) (pending (wordScanner p)) ++
  match failure (wordScanner p) with
  | None => numbered (line p) (pending (lineScanner p))
  | Some _ => []
  end.

(** The tokens from the current word on, empty at end of stream. *)
Definition cursor (p : parser) : list (Z * string) :=
  if eof p then [] else (line p, currentWord p) :: upcoming p.

(** Neither scanner reports a failure. *)
Definition clean (p : parser) : Prop :=
  failure (wordScanner p) = None /\ failure (lineScanner p) = None.

(** What one advance of the cursor does to the state: [more] is the
    boolean returned. *)
Record stepped (p : parser) (more : bool) (p' : parser) : Prop :=
  { st_more : more = negb (eof p');
    st_line : line p <= line p';
    st_header : HeaderError p' = HeaderError p;
    st_skipped : TrianglesSkipped p' = TrianglesSkipped p;
    st_source : failure (lineScanner p') = failure (lineScanner p);
    st_words : failure (wordScanner p) = None ->
               failure (wordScanner p') = None;
    st_errors : eof p' = false \/ clean p -> errors p' = errors p;
    st_end : eof p' = true -> currentWord p' = "" }.

(** The parser moved forward from [p] to [p']: the tokens ahead of [p'] are
    a suffix of those ahead of [p], the line number did not decrease, the
    end of stream is final, and only [TrianglesSkipped] may have been
    raised among the flags. *)
Record forward (p p' : parser) : Prop :=
  { fw_suffix : exists skipped, cursor p = skipped ++ cursor p';
    fw_line : line p <= line p';
    fw_eof : eof p = true -> eof p' = true;
    fw_header : HeaderError p' = HeaderError p;
    fw_skipped : TrianglesSkipped p = true -> TrianglesSkipped p' = true;
    fw_source : failure (lineScanner p') = failure (lineScanner p);
    fw_words : failure (wordScanner p) = None ->
               failure (wordScanner p') = None }.

(** [moves] is [forward] with [TrianglesSkipped] left as it was. *)
Definition moves (p p' : parser) : Prop :=
  forward p p' /\ TrianglesSkipped p' = TrianglesSkipped p.

(** The two synchronising keywords of the recovery. *)
Definition sync : Z := Z.lor idFacet idEndsolid.

Definition is_sync (w : string) : bool :=
  MatchString (identRegexps sync) w.

(** The tokens from the first synchronising keyword on. *)
Fixpoint resync (toks : list (Z * string)) : list (Z * string) :=
  match toks with
  | [] => []
  | (n, w) :: rest => if is_sync w then toks else resync rest
  end.

(** The three ways [skipToToken] on the two synchronising keywords ends:
    which keyword it reports and where the cursor stands. *)
Definition found_at (found : Z) (p : parser) : Prop :=
  (found = idFacet /\ currentWord p = "facet") \/
  (found = idEndsolid /\ currentWord p = "endsolid") \/
  (found = idNone /\ eof p = true).

(** *** The facet grammar as a list of steps *)

(** One step of [parseFacet]: a keyword to consume, or a coordinate to
    parse and store. *)
Inductive item : Type :=
| K (ident : Z)
| Coord (f : ref float32).

Definition point_items (pt : ref vec3) : list item :=
  [Coord (elem pt 0); Coord (elem pt 1); Coord (elem pt 2)].

(** The steps of [parseFacet], in the order it runs them. *)
Definition facet_grammar : list item :=
  [K idFacet; K idNormal] ++ point_items addr_Normal ++
  [K idOuter; K idLoop; K idVertex] ++ point_items (addr_Vertices 0) ++
  [K idVertex] ++ point_items (addr_Vertices 1) ++
  [K idVertex] ++ point_items (addr_Vertices 2) ++
  [K idEndloop; K idEndfacet].

Definition run_item (it : item) : step :=
  match it with
  | K ident => token ident
  | Coord f => parseFloat32 f
  end.

Fixpoint run_items (its : list item) : step :=
  match its with
  | [] => fun p t => (true, p, t)
  | it :: rest => andthen (run_item it) (run_items rest)
  end.

(** Whether the word [w] is what the step expects. *)
Definition item_accepts (it : item) (w : string) : bool :=
  match it with
  | K ident => MatchString (identRegexps ident) w
  | Coord _ =>
      match ParseFloat32 w with
      | Some _ => true
      | None => false
      end
  end.

(** What an accepted word stores into the triangle. *)
Definition item_store (it : item) (w : string) (t : Triangle) : Triangle :=
  match it with
  | K _ => t
  | Coord f =>
      match ParseFloat32 w with
      | Some x => store f x t
      | None => t
      end
  end.

(** The error a step records on a word it does not accept. *)
Definition item_error (it : item) : error :=
  match it with
  | K ident => Errorf_ident errInvalidToken (idents ident)
  | Coord _ => ErrInvalidFloat
  end.

(** The triangle that words accepted step by step build, if all are. *)
Fixpoint read_items (its : list item) (ws : list string) (t : Triangle)
  : option Triangle :=
  match its, ws with
  | [], [] => Some t
  | it :: its', w :: ws' =>
      if item_accepts it w then read_items its' ws' (item_store it w t)
      else None
  | _, _ => None
  end.

(** *** Well-formed facet blocks, in the words of the input format *)

Definition coords : Type := (string * string * string)%type.

(** The text of a facet block: its twelve coordinate tokens. *)
Record facet_text : Type :=
  { text_normal : coords;
    text_vertex1 : coords;
    text_vertex2 : coords;
    text_vertex3 : coords }.

Definition coords_words (c : coords) : list string :=
  let '(x, y, z) := c in [x; y; z].

(** [facet normal nx ny nz outer loop vertex x y z vertex x y z
    vertex x y z endloop endfacet]. *)
Definition facet_words (f : facet_text) : list string :=
  ["facet"; "normal"] ++ coords_words (text_normal f) ++
  ["outer"; "loop"] ++
  ["vertex"] ++ coords_words (text_vertex1 f) ++
  ["vertex"] ++ coords_words (text_vertex2 f) ++
  ["vertex"] ++ coords_words (text_vertex3 f) ++
  ["endloop"; "endfacet"].

Definition coords_value (c : coords) : option vec3 :=
  let '(x, y, z) := c in
  match ParseFloat32 x, ParseFloat32 y, ParseFloat32 z with
  | Some a, Some b, Some c => Some (a, b, c)
  | _, _, _ => None
  end.

(** The triangle a facet block denotes, when its twelve coordinates are
    numbers. *)
Definition facet_value (f : facet_text) : option Triangle :=
  match coords_value (text_normal f), coords_value (text_vertex1 f),
        coords_value (text_vertex2 f), coords_value (text_vertex3 f) with
  | Some n, Some a, Some b, Some c =>
      Some {| Normal := n; Vertices := (a, b, c); Attr := 0 |}
  | _, _, _, _ => None
  end.

(** *** Runs of the triangle loop *)

(** [iterates s s']: the triangle loop started in [s] reaches the head of
    the loop in state [s'] after some iterations. *)
Inductive iterates : parser * globals -> parser * globals -> Prop :=
| iterates_here (s : parser * globals) : iterates s s
| iterates_next (s s' s'' : parser * globals) :
    TriangleLoop_iter s = inl s' -> iterates s' s'' -> iterates s s''.

(** The state in which [Parse] enters the triangle loop: after the header
    line. *)
Definition loop_entry (p : parser) (g : globals) : parser * globals :=
  let '(ok, p1, g1) := parseASCIIHeaderLine p g in
  (set_HeaderError (negb ok) p1, g1).

(** At the end of the stream the current word is empty, as [nextLine] and
    [nextWord] leave it. *)
Definition settled (p : parser) : Prop := eof p = true -> currentWord p = "".

(** The error value is nil or the join of exactly one line-tagged error. *)
Definition at_most_one (e : option error) : Prop :=
  e = None \/ exists n msg, e = Some (Joined [Errorf_line n msg]).

(** From [p] to [p'] the error value was left alone or replaced by the
    join of one line-tagged error. *)
Definition rewrites (p p' : parser) : Prop :=
  errors p' = errors p \/
  exists n msg, errors p' = Some (Joined [Errorf_line n msg]).

(** Two parser states with the same words ahead and the same flags,
    whatever the lines the words stand on. *)
Definition same_words (p q : parser) : Prop :=
  map snd (cursor p) = map snd (cursor q) /\
  settled p /\ settled q /\
  HeaderError p = HeaderError q /\
  TrianglesSkipped p = TrianglesSkipped q.

(** [k] advances of the cursor. *)
Definition advance (k : nat) (p : parser) : parser :=
  Nat.iter k (fun q => snd (nextWord q)) p.

(** The words of a facet block stand somewhere in a sequence of words. *)
Definition block_in (f : facet_text) (ws : list string) : Prop :=
  exists before after, ws = before ++ facet_words f ++ after.

(** Progress over the input alone: the tokens ahead of [p'] are a suffix
    of those ahead of [p], the line number did not decrease and the end of
    stream is final. *)
Definition progress (p p' : parser) : Prop :=
  (exists skipped, cursor p = skipped ++ cursor p') /\
  line p <= line p' /\
  (eof p = true -> eof p' = true).

End Cursor.

(** ** Properties *)

Section Properties.

Context {rt : Runtime}.

(** Split a conjunction into its parts, without unfolding definitions. *)
Ltac conj :=
  repeat match goal with
         | |- _ /\ _ => split
         | |- _ -> _ /\ _ => intro
         end.

Lemma length_numbered (n : Z) (ls : list (list byte)) :
  List.length (numbered n ls) = List.length (flat_map ScanWords ls).
Proof.
  revert n; induction ls as [|l ls IH]; intros n; simpl; [reflexivity|].
  now rewrite !length_app, length_map, IH.
Qed.

Lemma map_snd_numbered (n : Z) (ls : list (list byte)) :
  map snd (numbered n ls) = flat_map ScanWords ls.
Proof.
  revert n; induction ls as [|l ls IH]; intros n; simpl; [reflexivity|].
  rewrite map_app, map_map, IH. simpl. now rewrite map_id.
Qed.

Lemma length_upcoming (p : parser) :
  (List.length (upcoming p) <= remaining p)%nat.
Proof.
  unfold upcoming, remaining. rewrite length_app, length_map.
  destruct (failure (wordScanner p)); simpl; [lia|].
  rewrite length_numbered. lia.
Qed.

Lemma length_cursor (p : parser) :
  (List.length (cursor p) <= S (remaining p))%nat.
Proof.
  unfold cursor. pose proof (length_upcoming p).
  destruct (eof p); simpl; lia.
Qed.

Lemma cursor_eof (p : parser) : eof p = true -> cursor p = [].
Proof. unfold cursor. now intros ->. Qed.

Lemma cursor_live (p : parser) :
  eof p = false -> cursor p = (line p, currentWord p) :: upcoming p.
Proof. unfold cursor. now intros ->. Qed.

Lemma cursor_cons_inv (p : parser) n w rest :
  cursor p = (n, w) :: rest ->
  eof p = false /\ line p = n /\ currentWord p = w /\ upcoming p = rest.
Proof.
  unfold cursor. destruct (eof p); [discriminate|].
  intros H; injection H as -> -> ->. auto.
Qed.

(** [nextLine] on a live parser whose line scanner holds [ls]. *)
Lemma nextLine_from_spec (ls : list (list byte)) :
  forall p more p',
    eof p = false ->
    pending (lineScanner p) = ls ->
    nextLine_from ls p = (more, p') ->
    cursor p' = numbered (line p) ls /\
    more = negb (eof p') /\
    line p <= line p' /\
    HeaderError p' = HeaderError p /\
    TrianglesSkipped p' = TrianglesSkipped p /\
    failure (lineScanner p') = failure (lineScanner p) /\
    (failure (wordScanner p) = None -> failure (wordScanner p') = None) /\
    (eof p' = false \/ failure (lineScanner p) = None ->
     errors p' = errors p) /\
    (eof p' = true -> currentWord p' = "").
Proof.
  induction ls as [|l ls IH]; intros p more p' Hlive Hls; simpl.
  - intros H; injection H as <- <-.
    destruct (failure (lineScanner p)) eqn:Hf; simpl;
      repeat split; auto; try lia;
      try (intros H; discriminate H);
      intros [H|H]; try discriminate H; reflexivity.
  - unfold nextWord_with. simpl. rewrite Hlive.
    unfold Scan; simpl.
    destruct (ScanWords l) as [|w ws] eqn:Hw.
    + intros H. apply IH in H; simpl; auto.
      simpl in H. destruct H as (Hc & Hm & Hl & Hh & Hs & Hf & Hwf & He & Hend).
      repeat split; auto; try lia.
    + intros H; injection H as <- <-. simpl.
      unfold cursor, upcoming; simpl. rewrite Hlive.
      repeat split; auto; try lia; intros H; discriminate H.
Qed.

Lemma nextWord_eof (p : parser) : eof p = true -> nextWord p = (false, p).
Proof. unfold nextWord, nextWord_with. now intros ->. Qed.

(** One advance of a live cursor drops exactly the current token. *)
Lemma nextWord_spec (p : parser) (more : bool) (p' : parser) :
  eof p = false ->
  nextWord p = (more, p') ->
  cursor p' = upcoming p /\ stepped p more p'.
Proof.
  intros Hlive. unfold nextWord, nextWord_with. rewrite Hlive.
  unfold Scan. destruct (pending (wordScanner p)) as [|w ws] eqn:Hp.
  - destruct (failure (wordScanner p)) as [e|] eqn:Hf.
    + intros H; injection H as <- <-. split.
      * unfold upcoming. now rewrite Hp, Hf.
      * constructor; simpl; auto; try lia.
        intros [H|[H _]]; [discriminate H|congruence].
    + intros H. apply nextLine_from_spec in H; auto.
      destruct H as (Hc & Hm & Hl & Hh & Hs & Hsrc & Hwf & He & Hend).
      split.
      * unfold upcoming. now rewrite Hp, Hf.
      * constructor; auto.
        intros [H|[_ H]]; auto.
  - intros H; injection H as <- <-. split.
    + unfold cursor, upcoming; simpl. rewrite Hlive, Hp. reflexivity.
    + constructor; simpl; auto; try lia; rewrite Hlive; [reflexivity|discriminate].
Qed.

(** *** Forward motion *)

Lemma forward_refl (p : parser) : forward p p.
Proof. constructor; auto; try lia. now exists []. Qed.

Lemma forward_trans (p q r : parser) :
  forward p q -> forward q r -> forward p r.
Proof.
  intros [[s1 H1] ? ? ? ? ? ?] [[s2 H2] ? ? ? ? ? ?].
  constructor; auto; try lia; try congruence.
  exists (s1 ++ s2). now rewrite H1, H2, app_assoc.
Qed.

Lemma moves_refl (p : parser) : moves p p.
Proof. split; [apply forward_refl|reflexivity]. Qed.

Lemma moves_trans (p q r : parser) : moves p q -> moves q r -> moves p r.
Proof.
  intros [F1 E1] [F2 E2]. split; [eapply forward_trans; eauto|congruence].
Qed.

Lemma moves_forward (p q : parser) : moves p q -> forward p q.
Proof. now intros [H _]. Qed.

Lemma forward_length (p q : parser) :
  forward p q -> (List.length (cursor q) <= List.length (cursor p))%nat.
Proof.
  intros [[s H] _ _ _ _ _ _]. rewrite H, length_app. lia.
Qed.

Lemma cursor_addError (e : error) (p : parser) :
  cursor (addError e p) = cursor p.
Proof. reflexivity. Qed.

Lemma addError_moves (e : error) (p : parser) : moves p (addError e p).
Proof.
  split; [constructor|]; simpl; auto; try lia. now exists [].
Qed.

Lemma set_TrianglesSkipped_forward (p : parser) :
  forward p (set_TrianglesSkipped true p).
Proof. constructor; simpl; auto; try lia. now exists []. Qed.

Lemma stepped_moves (p : parser) (more : bool) (p' : parser) :
  eof p = false -> cursor p' = upcoming p -> stepped p more p' ->
  moves p p'.
Proof.
  intros Hlive Hc [? ? ? ? ? ? ? ?]. split; [constructor|]; auto.
  - exists [(line p, currentWord p)]. rewrite Hc. now apply cursor_live.
  - congruence.
  - congruence.
Qed.

Lemma nextWord_moves (p : parser) : moves p (snd (nextWord p)).
Proof.
  destruct (eof p) eqn:E.
  - rewrite nextWord_eof by assumption. apply moves_refl.
  - destruct (nextWord p) as [more p'] eqn:N.
    destruct (nextWord_spec _ _ _ E N). simpl. eapply stepped_moves; eauto.
Qed.

(** A live cursor that advances has strictly fewer tokens ahead. *)
Lemma nextWord_shrinks (p : parser) :
  eof p = false ->
  cursor p = (line p, currentWord p) :: cursor (snd (nextWord p)).
Proof.
  intros E. destruct (nextWord p) as [more p'] eqn:N.
  destruct (nextWord_spec _ _ _ E N) as [Hc _]. simpl.
  rewrite Hc. now apply cursor_live.
Qed.

(** *** Loops *)

Lemma loop_mono {St R : Type} (body : St -> St + R) :
  forall n m s r, loop n body s = Some r -> (n <= m)%nat ->
                  loop m body s = Some r.
Proof.
  induction n as [|n IH]; intros m s r H Hle; [discriminate|].
  destruct m as [|m]; [lia|]. simpl in *.
  destruct (body s) as [s'|r']; auto. apply IH; [assumption|lia].
Qed.

Section Measure.

Context {St R : Type} (body : St -> St + R) (mu : St -> nat).
Hypothesis decreasing : forall s s', body s = inl s' -> (mu s' < mu s)%nat.

Lemma loop_terminates :
  forall n s, (mu s < n)%nat -> exists r, loop n body s = Some r.
Proof.
  induction n as [|n IH]; intros s H; [lia|]. simpl.
  destruct (body s) as [s'|r] eqn:B; [|now exists r].
  apply IH. apply decreasing in B. lia.
Qed.

Lemma loop_stable :
  forall n m s, (mu s < n)%nat -> (mu s < m)%nat ->
                loop n body s = loop m body s.
Proof.
  intros n m s Hn Hm.
  destruct (loop_terminates (S (mu s)) s) as [r Hr]; [lia|].
  rewrite (loop_mono body _ n _ _ Hr) by lia.
  now rewrite (loop_mono body _ m _ _ Hr) by lia.
Qed.

Lemma loop_unfold :
  forall n s, (mu s < n)%nat ->
    loop n body s =
    match body s with
    | inl s' => loop (S (mu s')) body s'
    | inr r => Some r
    end.
Proof.
  intros n s H. destruct n as [|n]; [lia|].
  destruct (body s) as [s'|r] eqn:B.
  - transitivity (loop n body s'); [simpl; now rewrite B|].
    apply decreasing in B. apply loop_stable; lia.
  - simpl. now rewrite B.
Qed.

End Measure.

(** *** skipToToken *)

Lemma skipToToken_iter_decreasing (ident : Z) (p p' : parser) :
  skipToToken_iter ident p = inl p' ->
  (List.length (upcoming p') < List.length (upcoming p))%nat.
Proof.
  unfold skipToToken_iter.
  destruct (MatchString (identRegexps ident) (currentWord p)).
  - destruct (Z.eqb ident (Z.lor idFacet idEndsolid));
      [destruct (MatchString _ _)|]; discriminate.
  - destruct (nextWord p) as [more q] eqn:N.
    destruct more; simpl; [|discriminate].
    intros H; injection H as <-.
    destruct (eof p) eqn:E.
    + rewrite nextWord_eof in N by assumption. discriminate.
    + destruct (nextWord_spec _ _ _ E N) as [Hc [Hm _ _ _ _ _ _ _]].
      rewrite <- Hc. destruct (eof q) eqn:Eq; [discriminate|].
      rewrite (cursor_live _ Eq). simpl. lia.
Qed.

(** The loop of [skipToToken] ends within one iteration more than there
    are words left, and more fuel does not change what it returns. *)
Lemma skipToToken_terminates (ident : Z) (p : parser) (fuel : nat) :
  (S (remaining p) <= fuel)%nat ->
  loop fuel (skipToToken_iter ident) p = Some (skipToToken ident p).
Proof.
  intros H. pose proof (length_upcoming p) as Hl.
  destruct (loop_terminates _ _ (skipToToken_iter_decreasing ident)
              (S (remaining p)) p) as [r Hr]; [lia|].
  unfold skipToToken. rewrite Hr. eapply loop_mono; eauto.
Qed.

Lemma skipToToken_unfold (ident : Z) (p : parser) :
  skipToToken ident p =
  match skipToToken_iter ident p with
  | inl p' => skipToToken ident p'
  | inr r => r
  end.
Proof.
  pose proof (skipToToken_terminates ident p _ (Nat.le_refl _)) as H.
  pose proof (length_upcoming p) as Hl.
  rewrite (loop_unfold _ _ (skipToToken_iter_decreasing ident)) in H by lia.
  destruct (skipToToken_iter ident p) as [p'|r]; [|congruence].
  pose proof (length_upcoming p') as Hl'.
  rewrite (loop_stable _ _ (skipToToken_iter_decreasing ident)
             _ (S (remaining p'))) in H by lia.
  rewrite skipToToken_terminates in H by lia. congruence.
Qed.

Lemma match_keyword (ident : Z) (w : string) :
  In ident [idSolid; idFacet; idNormal; idOuter; idLoop; idVertex;
            idEndloop; idEndfacet; idEndsolid] ->
  MatchString (identRegexps ident) w = String.eqb w (idents ident).
Proof.
  simpl. intros H.
  repeat (destruct H as [<-|H]; [reflexivity|]). contradiction.
Qed.

Lemma is_sync_eq (w : string) :
  is_sync w = String.eqb w "facet" || String.eqb w "endsolid".
Proof. reflexivity. Qed.

Lemma clean_stepped (p : parser) (more : bool) (p' : parser) :
  stepped p more p' -> clean p -> clean p'.
Proof.
  intros [? ? ? ? Hs Hw ? ?] [C1 C2]. split; [auto|congruence].
Qed.

Lemma skipToToken_sync_spec (n : nat) :
  forall p found p',
    (List.length (upcoming p) < n)%nat ->
    skipToToken sync p = (found, p') ->
    moves p p' /\ found_at found p' /\
    (eof p = false ->
     cursor p' = resync (cursor p) /\ (found <> idNone -> eof p' = false)) /\
    (eof p' = false \/ clean p -> errors p' = errors p) /\
    (clean p -> clean p').
Proof.
  induction n as [|n IH]; intros p found p' Hn; [lia|].
  rewrite skipToToken_unfold. unfold skipToToken_iter.
  change (MatchString (identRegexps sync) (currentWord p))
    with (is_sync (currentWord p)).
  change (Z.eqb sync (Z.lor idFacet idEndsolid)) with true. cbv iota.
  destruct (is_sync (currentWord p)) eqn:Hs.
  - assert (Hres : eof p = false -> resync (cursor p) = cursor p).
    { intros E. rewrite (cursor_live _ E). simpl. now rewrite Hs. }
    rewrite (match_keyword idFacet) by (simpl; auto).
    rewrite is_sync_eq in Hs.
    change (idents idFacet) with "facet".
    destruct (String.eqb (currentWord p) "facet") eqn:Hf.
    + intros H; injection H as <- <-. apply String.eqb_eq in Hf.
      conj; auto using moves_refl.
      * left. auto.
      * now rewrite Hres.
    + simpl in Hs. apply String.eqb_eq in Hs.
      intros H; injection H as <- <-.
      conj; auto using moves_refl.
      * right; left. auto.
      * now rewrite Hres.
  - destruct (eof p) eqn:E.
    + rewrite nextWord_eof by assumption. simpl.
      intros H; injection H as <- <-.
      conj; auto using moves_refl; try discriminate.
      right; right. auto.
    + destruct (nextWord p) as [more q] eqn:N.
      destruct (nextWord_spec _ _ _ E N) as [Hc St].
      pose proof (stepped_moves _ _ _ E Hc St) as Mv.
      pose proof (clean_stepped _ _ _ St) as Cq.
      assert (Hres : resync (cursor p) = resync (cursor q)).
      { rewrite (cursor_live _ E), Hc. simpl. now rewrite Hs. }
      pose proof (st_more _ _ _ St) as Hm.
      destruct (eof q) eqn:Eq; subst more; simpl.
      * intros H; injection H as <- <-.
        conj; auto.
        -- right; right. auto.
        -- rewrite Hres. now rewrite !cursor_eof.
        -- intros Hx; now elim Hx.
        -- intros [Hx|Hx]; [congruence|]. apply (st_errors _ _ _ St). auto.
      * intros H. apply IH in H.
        2:{ rewrite <- Hc in Hn. rewrite (cursor_live _ Eq) in Hn.
            simpl in Hn. lia. }
        destruct H as (M & F & C & Er & Cl).
        destruct (C Eq) as [C1 C2].
        conj; auto.
        -- eapply moves_trans; eauto.
        -- congruence.
        -- intros Hx. rewrite Er.
           ++ apply (st_errors _ _ _ St). auto.
           ++ destruct Hx as [Hx|Hx]; auto.
Qed.

(** *** The steps of the facet grammar *)

Lemma run_item_accept (it : item) (p : parser) (t : Triangle) n w rest :
  cursor p = (n, w) :: rest ->
  item_accepts it w = true ->
  run_item it p t = (true, snd (nextWord p), item_store it w t).
Proof.
  intros Hc Ha. apply cursor_cons_inv in Hc as (E & _ & Hw & _).
  destruct it as [ident|f]; simpl in *.
  - unfold token, consumeToken. rewrite Hw, Ha. reflexivity.
  - unfold parseFloat32. rewrite E, Hw.
    destruct (ParseFloat32 w); [reflexivity|discriminate].
Qed.


Lemma run_item_moves (it : item) (p : parser) (t : Triangle) ok p' t' :
  run_item it p t = (ok, p', t') -> moves p p'.
Proof.
  destruct it as [ident|f]; simpl.
  - unfold token, consumeToken.
    destruct (negb _); intros H; injection H as <- <- <-;
      [apply addError_moves|apply nextWord_moves].
  - unfold parseFloat32. destruct (eof p).
    + intros H; injection H as <- <- <-. apply moves_refl.
    + destruct (ParseFloat32 _); intros H; injection H as <- <- <-;
        [apply nextWord_moves|apply addError_moves].
Qed.

Lemma run_items_moves (its : list item) :
  forall p t ok p' t', run_items its p t = (ok, p', t') -> moves p p'.
Proof.
  induction its as [|it its IH]; intros p t ok p' t'; simpl.
  - intros H; injection H as <- <- <-. apply moves_refl.
  - unfold andthen. destruct (run_item it p t) as [[ok1 p1] t1] eqn:R.
    apply run_item_moves in R. destruct ok1.
    + intros H. apply IH in H. eapply moves_trans; eauto.
    + intros H; injection H as <- <- <-. assumption.
Qed.

(** [parseFacet] runs the steps of [facet_grammar] in order and stops at
    the first that fails. *)
Lemma parseFacet_items (p : parser) (t : Triangle) :
  parseFacet p t = run_items facet_grammar p t.
Proof.
  unfold parseFacet, parsePoint, facet_grammar, point_items.
  cbn [app run_items run_item]. unfold andthen.
  repeat match goal with
         | |- context [token ?i ?q ?u] =>
             destruct (token i q u) as [[[] ?] ?]; try reflexivity
         | |- context [parseFloat32 ?f ?q ?u] =>
             destruct (parseFloat32 f q u) as [[[] ?] ?]; try reflexivity
         end.
Qed.

Lemma parseFacet_moves (p : parser) (t : Triangle) ok p' t' :
  parseFacet p t = (ok, p', t') -> moves p p'.
Proof. rewrite parseFacet_items. apply run_items_moves. Qed.

(** Words that every step accepts are consumed, and build the triangle
    [read_items] gives. *)
Lemma run_items_accept (its : list item) :
  forall toks p t t' rest,
    read_items its (map snd toks) t = Some t' ->
    cursor p = toks ++ rest ->
    exists p',
      run_items its p t = (true, p', t') /\ cursor p' = rest /\
      moves p p' /\
      (rest <> [] \/ clean p -> errors p' = errors p) /\
      (clean p -> clean p').
Proof.
  induction its as [|it its IH]; intros toks p t t' rest.
  - destruct toks; simpl; [|discriminate].
    intros H; injection H as <-. intros Hc. exists p.
    conj; auto using moves_refl.
  - destruct toks as [|[n w] toks]; simpl; [discriminate|].
    destruct (item_accepts it w) eqn:Ha; [|discriminate].
    intros Hr Hc. unfold andthen.
    rewrite (run_item_accept _ _ _ _ _ _ Hc Ha).
    pose proof Hc as Hc'. apply cursor_cons_inv in Hc' as (E & _ & _ & Hu).
    destruct (nextWord p) as [more q] eqn:N.
    destruct (nextWord_spec _ _ _ E N) as [Hq St]. simpl.
    rewrite Hu in Hq.
    destruct (IH _ _ _ _ _ Hr Hq) as (p' & R & C & M & Er & Cl).
    assert (Mq : moves p q).
    { eapply stepped_moves; eauto. congruence. }
    pose proof (clean_stepped _ _ _ St) as Cq.
    exists p'. conj; auto.
    + eapply moves_trans; eauto.
    + intros H. rewrite Er.
      * apply (st_errors _ _ _ St). destruct H as [H|H]; [|auto].
        left. destruct (eof q) eqn:Eq; [|reflexivity].
        rewrite (cursor_eof _ Eq) in Hq. destruct toks; simpl in Hq;
          [now elim H|discriminate].
      * destruct H as [H|H]; auto.
Qed.


(** *** The triangle loop *)

(** After its first keyword a facet only moves forward. *)
Lemma parseFacet_head (p : parser) (t : Triangle) ok p' t' :
  eof p = false -> currentWord p = "facet" ->
  parseFacet p t = (ok, p', t') ->
  moves (snd (nextWord p)) p'.
Proof.
  intros E W. rewrite parseFacet_items.
  change facet_grammar with (K idFacet :: tl facet_grammar).
  cbn [run_items]. unfold andthen.
  rewrite (run_item_accept (K idFacet) p t (line p) "facet" (upcoming p)).
  - apply run_items_moves.
  - rewrite <- W. now apply cursor_live.
  - reflexivity.
Qed.

(** What an iteration that continues the loop has done: it stood at, or
    skipped to, a [facet] keyword at [p1], tried a facet there, and either
    appended its triangle or raised [TrianglesSkipped] and skipped on. *)
Lemma TriangleLoop_iter_inl (p : parser) (g : globals) p' g' :
  TriangleLoop_iter (p, g) = inl (p', g') ->
  exists p1 ok p2 t,
    eof p = false /\
    (p1 = p \/
     skipToToken sync (addError ErrInvalidExpectedToken p) = (idFacet, p1)) /\
    moves p p1 /\ eof p1 = false /\ currentWord p1 = "facet" /\
    parseFacet p1 Triangle_zero = (ok, p2, t) /\
    (if ok then p' = p2 /\ g' = append_triangle t g
     else p' = snd (skipToToken sync (set_TrianglesSkipped true p2)) /\
          g' = g).
Proof.
  unfold TriangleLoop_iter. fold sync.
  destruct (eof p) eqn:E; cbn [negb andb]; [discriminate|].
  destruct (isCurrentTokenIdent idEndsolid p); cbn [negb andb];
    [discriminate|].
  destruct (isCurrentTokenIdent idFacet p) eqn:F; cbn [negb].
  - unfold isCurrentTokenIdent in F.
    rewrite (match_keyword idFacet) in F by (simpl; auto).
    apply String.eqb_eq in F.
    destruct (parseFacet p Triangle_zero) as [[ok p2] t] eqn:PF.
    intros H. exists p, ok, p2, t.
    conj; auto using moves_refl.
    destruct ok; injection H as <- <-; auto.
  - destruct (skipToToken sync (addError ErrInvalidExpectedToken p))
      as [found p1] eqn:Sk.
    destruct (skipToToken_sync_spec _ _ _ _ (Nat.lt_succ_diag_r _) Sk)
      as (M & Fa & C & _ & _).
    destruct (C E) as [_ Live].
    set (leave := Z.eqb found idEndsolid || Z.eqb found idNone).
    destruct Fa as [[-> W]|[[-> W]|[-> W]]]; vm_compute in leave;
      subst leave; cbv iota; try discriminate.
    destruct (parseFacet p1 Triangle_zero) as [[ok p2] t] eqn:PF.
    intros H. exists p1, ok, p2, t.
    conj; auto.
    + eapply moves_trans; [apply addError_moves|eassumption].
    + apply Live. discriminate.
    + destruct ok; injection H as <- <-; auto.
Qed.

(** Every iteration moves forward, keeps the name and only appends to the
    triangle list. *)
Lemma TriangleLoop_iter_forward (s r : parser * globals) :
  TriangleLoop_iter s = inl r \/ TriangleLoop_iter s = inr r ->
  forward (fst s) (fst r) /\ name (snd r) = name (snd s) /\
  exists ts, triangles (snd r) = triangles (snd s) ++ ts.
Proof.
  destruct s as [p g], r as [p' g']. intros [H|H].
  - apply TriangleLoop_iter_inl in H
      as (p1 & ok & p2 & t & E & _ & M1 & _ & _ & PF & R).
    apply parseFacet_moves in PF. simpl.
    destruct ok; destruct R as [-> ->]; simpl.
    + conj; auto.
      * apply moves_forward. eapply moves_trans; eauto.
      * now exists [t].
    + destruct (skipToToken sync (set_TrianglesSkipped true p2))
        as [found q] eqn:Sk.
      destruct (skipToToken_sync_spec _ _ _ _ (Nat.lt_succ_diag_r _) Sk)
        as (M & _).
      conj; auto.
      * eapply forward_trans;
          [apply moves_forward; eapply moves_trans; eauto|].
        eapply forward_trans;
          [apply set_TrianglesSkipped_forward|apply moves_forward, M].
      * exists []. now rewrite app_nil_r.
  - revert H. unfold TriangleLoop_iter. fold sync.
    destruct (negb (eof p) && negb (isCurrentTokenIdent idEndsolid p)).
    + destruct (negb (isCurrentTokenIdent idFacet p)).
      * destruct (skipToToken sync (addError ErrInvalidExpectedToken p))
          as [found p1] eqn:Sk.
        destruct (skipToToken_sync_spec _ _ _ _ (Nat.lt_succ_diag_r _) Sk)
          as (M & _).
        destruct (Z.eqb found idEndsolid || Z.eqb found idNone).
        -- intros H; injection H as <- <-. simpl. conj; auto.
           ++ apply moves_forward.
              eapply moves_trans; [apply addError_moves|eassumption].
           ++ exists []. now rewrite app_nil_r.
        -- destruct (parseFacet p1 Triangle_zero) as [[[] ?] ?];
             discriminate.
      * destruct (parseFacet p Triangle_zero) as [[[] ?] ?]; discriminate.
    + intros H; injection H as <- <-. simpl. conj; auto using forward_refl.
      exists []. now rewrite app_nil_r.
Qed.

Lemma TriangleLoop_iter_decreasing (s s' : parser * globals) :
  TriangleLoop_iter s = inl s' ->
  (List.length (cursor (fst s')) < List.length (cursor (fst s)))%nat.
Proof.
  destruct s as [p g], s' as [p' g']. intros H. simpl.
  apply TriangleLoop_iter_inl in H
    as (p1 & ok & p2 & t & E & _ & M1 & E1 & W1 & PF & R).
  apply parseFacet_head in PF; auto.
  pose proof (forward_length _ _ (moves_forward _ _ M1)) as L1.
  pose proof (forward_length _ _ (moves_forward _ _ PF)) as L2.
  rewrite (nextWord_shrinks _ E1) in L1. simpl in L1.
  destruct ok; destruct R as [-> ->]; [lia|].
  destruct (skipToToken sync (set_TrianglesSkipped true p2))
    as [found q] eqn:Sk.
  destruct (skipToToken_sync_spec _ _ _ _ (Nat.lt_succ_diag_r _) Sk)
    as (M & _).
  apply moves_forward, forward_length in M. simpl.
  change (cursor (set_TrianglesSkipped true p2)) with (cursor p2) in M. lia.
Qed.

(** The triangle loop ends within [budget p] iterations, and more fuel does
    not change its result. *)
Lemma TriangleLoop_terminates (p : parser) (g : globals) (fuel : nat) :
  (budget p <= fuel)%nat ->
  loop fuel TriangleLoop_iter (p, g) = Some (TriangleLoop p g).
Proof.
  intros H. pose proof (length_cursor p) as Hl. unfold budget in *.
  destruct (loop_terminates _ (fun s => List.length (cursor (fst s)))
              TriangleLoop_iter_decreasing
              (S (S (remaining p))) (p, g)) as [r Hr]; [simpl; lia|].
  unfold TriangleLoop, budget. rewrite Hr. eapply loop_mono; eauto.
Qed.

Lemma TriangleLoop_unfold (p : parser) (g : globals) :
  TriangleLoop p g =
  match TriangleLoop_iter (p, g) with
  | inl (p', g') => TriangleLoop p' g'
  | inr r => r
  end.
Proof.
  pose proof (TriangleLoop_terminates p g _ (Nat.le_refl _)) as H.
  pose proof (length_cursor p) as Hl.
  rewrite (loop_unfold _ (fun s => List.length (cursor (fst s)))
             TriangleLoop_iter_decreasing) in H by (unfold budget; simpl; lia).
  destruct (TriangleLoop_iter (p, g)) as [[p' g']|r]; [|congruence].
  pose proof (length_cursor p') as Hl'.
  rewrite (loop_stable _ (fun s => List.length (cursor (fst s)))
             TriangleLoop_iter_decreasing _ (budget p')) in H
    by (unfold budget; simpl; lia).
  rewrite TriangleLoop_terminates in H by lia. congruence.
Qed.

(** Induction along the iterations of the triangle loop. *)
Lemma TriangleLoop_induction
  (P : parser * globals -> parser * globals -> Prop) :
  (forall s r, TriangleLoop_iter s = inr r -> P s r) ->
  (forall s s' r, TriangleLoop_iter s = inl s' -> P s' r -> P s r) ->
  forall p g, P (p, g) (TriangleLoop p g).
Proof.
  intros Hexit Hnext p.
  remember (List.length (cursor p)) as n eqn:Hn.
  revert p Hn. induction n as [n IH] using lt_wf_ind. intros p Hn g.
  rewrite TriangleLoop_unfold.
  destruct (TriangleLoop_iter (p, g)) as [[p' g']|r] eqn:It.
  - apply (Hnext _ _ _ It). eapply IH; [|reflexivity].
    apply TriangleLoop_iter_decreasing in It. simpl in It. lia.
  - now apply Hexit.
Qed.

Lemma iterates_TriangleLoop (s s' : parser * globals) :
  iterates s s' ->
  TriangleLoop (fst s) (snd s) = TriangleLoop (fst s') (snd s').
Proof.
  induction 1 as [s|[p g] [p' g'] s'' It _ IH]; [reflexivity|].
  cbn [fst snd] in *. rewrite TriangleLoop_unfold, It. assumption.
Qed.

Lemma TriangleLoop_forward (p : parser) (g : globals) :
  forward p (fst (TriangleLoop p g)) /\
  name (snd (TriangleLoop p g)) = name g /\
  exists ts, triangles (snd (TriangleLoop p g)) = triangles g ++ ts.
Proof.
  apply (TriangleLoop_induction
           (fun s r => forward (fst s) (fst r) /\
                       name (snd r) = name (snd s) /\
                       exists ts, triangles (snd r) =
                                  triangles (snd s) ++ ts)).
  - intros s r H. apply TriangleLoop_iter_forward. auto.
  - intros s s' r H (F & N & ts & T).
    destruct (TriangleLoop_iter_forward s s') as (F' & N' & ts' & T'); auto.
    conj.
    + eapply forward_trans; eauto.
    + congruence.
    + exists (ts' ++ ts). now rewrite T, T', app_assoc.
Qed.

(** *** The header line *)

Lemma HasPrefix_app (prefix s : list byte) :
  HasPrefix (prefix ++ s) prefix = true.
Proof.
  induction prefix as [|b prefix IH]; simpl; [reflexivity|].
  rewrite IH, andb_true_r. now apply Byte.byte_dec_lb.
Qed.

Lemma skipn_prefix {A : Type} (prefix s : list A) :
  skipn (List.length prefix) (prefix ++ s) = s.
Proof. induction prefix; simpl; auto. Qed.

(** The index loop stops exactly after the bytes that are below 128 and
    not 0. *)
Lemma extract_index_spec (nm : list byte) :
  forall fuel done tail,
    Forall (fun b => (Byte.to_N b < 128)%N /\ Byte.to_N b <> 0%N) nm ->
    tail = [] \/
    (exists b tl, tail = b :: tl /\
                  ((128 <= Byte.to_N b)%N \/ Byte.to_N b = 0%N)) ->
    (List.length nm + List.length tail <= fuel)%nat ->
    extract_index fuel (done ++ nm ++ tail) (List.length done) =
    (List.length done + List.length nm)%nat.
Proof.
  induction nm as [|b nm IH]; intros fuel done tail Hok Hstop Hfuel.
  - simpl. rewrite Nat.add_0_r. destruct fuel as [|fuel]; [reflexivity|].
    simpl. rewrite nth_error_app2, Nat.sub_diag by lia.
    destruct Hstop as [->|(b & tl & -> & Hb)]; simpl; [reflexivity|].
    destruct Hb as [Hb|Hb].
    + apply N.ltb_ge in Hb. now rewrite Hb.
    + apply N.eqb_eq in Hb. now rewrite Hb, andb_false_r.
  - inversion Hok as [|? ? [Hlt Hnz] Hok']; subst.
    destruct fuel as [|fuel]; [simpl in Hfuel; lia|].
    simpl. rewrite nth_error_app2, Nat.sub_diag by lia. simpl.
    apply N.ltb_lt in Hlt. apply N.eqb_neq in Hnz. rewrite Hlt, Hnz. simpl.
    replace (done ++ b :: nm ++ tail) with ((done ++ [b]) ++ nm ++ tail)
      by now rewrite <- app_assoc.
    replace (S (List.length done)) with (List.length (done ++ [b]))
      by (rewrite length_app; simpl; lia).
    rewrite IH; auto.
    + rewrite length_app. simpl. lia.
    + simpl in Hfuel. lia.
Qed.

Lemma extractASCIIString_spec (nm tail : list byte) :
  Forall (fun b => (Byte.to_N b < 128)%N /\ Byte.to_N b <> 0%N) nm ->
  tail = [] \/
  (exists b tl, tail = b :: tl /\
                ((128 <= Byte.to_N b)%N \/ Byte.to_N b = 0%N)) ->
  extractASCIIString (nm ++ tail) = string_of_list_byte nm.
Proof.
  intros Hok Hstop. unfold extractASCIIString.
  rewrite (extract_index_spec nm _ [] tail Hok Hstop)
    by (rewrite length_app; lia).
  simpl. now rewrite firstn_app, firstn_all, Nat.sub_diag, app_nil_r.
Qed.

(** C9.  When the header line begins with [solid ], the name that is stored
    consists of exactly the bytes [nm] that follow the prefix up to, and
    without, the first byte that is at least 128 or equal to 0; when there
    is no such byte ([tail] is empty) it is the whole remainder of the
    line.  This is the name [parseASCIIHeaderLine] stores and the name
    [Parse] ends with. *)
Theorem C9_name_stops_at_first_non_ascii_byte
  (p : parser) (g : globals) (nm tail : list byte) :
  eof p = false ->
  currentLine p = expectedASCIIHeaderPrefix ++ nm ++ tail ->
  Forall (fun b => (Byte.to_N b < 128)%N /\ Byte.to_N b <> 0%N) nm ->
  tail = [] \/
  (exists b tl, tail = b :: tl /\
                ((128 <= Byte.to_N b)%N \/ Byte.to_N b = 0%N)) ->
  fst (fst (parseASCIIHeaderLine p g)) = true /\
  name (snd (parseASCIIHeaderLine p g)) = string_of_list_byte nm /\
  name (snd (Parse p g)) = string_of_list_byte nm.
Proof.
  intros E Hline Hok Hstop.
  assert (H : parseASCIIHeaderLine p g =
              (true, snd (nextLine p),
               set_name (string_of_list_byte nm) g)).
  { unfold parseASCIIHeaderLine.
    rewrite E, Hline, HasPrefix_app, skipn_prefix. cbn [negb].
    now rewrite extractASCIIString_spec. }
  conj; try (rewrite H; reflexivity).
  unfold Parse, Parse_facets. rewrite E, H.
  destruct (TriangleLoop_forward
              (set_HeaderError (negb true) (snd (nextLine p)))
              (set_name (string_of_list_byte nm) g)) as (_ & N & _).
  destruct (TriangleLoop _ _) as [p1 g1].
  destruct (terminator_check p1). exact N.
Qed.

(** *** The end of [Parse] *)

Lemma consumeToken_endsolid (p : parser) :
  consumeToken idEndsolid p =
  if String.eqb (currentWord p) "endsolid"
  then (true, snd (nextWord p))
  else (false,
        addError (Errorf_ident errInvalidToken (idents idEndsolid)) p).
Proof.
  unfold consumeToken.
  rewrite (match_keyword idEndsolid) by (simpl; auto 10).
  change (idents idEndsolid) with "endsolid".
  now destruct (String.eqb (currentWord p) "endsolid").
Qed.

(** C10.  When the triangle loop ends with [HeaderError] or
    [TrianglesSkipped] set, the terminator check does not run
    [consumeToken]: [Parse] returns false with the parser exactly as the
    loop left it, so the current word (an [endsolid] included) is not
    consumed and no error is added, whether the terminator is there or
    not. *)
Theorem C10_terminator_check_short_circuits (p : parser) (g : globals) :
  HeaderError (fst (Parse_facets p g)) = true \/
  TrianglesSkipped (fst (Parse_facets p g)) = true ->
  Parse p g = (false, fst (Parse_facets p g), snd (Parse_facets p g)) /\
  currentWord (snd (fst (Parse p g))) =
    currentWord (fst (Parse_facets p g)) /\
  cursor (snd (fst (Parse p g))) = cursor (fst (Parse_facets p g)) /\
  errors (snd (fst (Parse p g))) = errors (fst (Parse_facets p g)).
Proof.
  unfold Parse. destruct (Parse_facets p g) as [p1 g1]. simpl.
  unfold terminator_check.
  intros [H|H]; rewrite H; simpl; [auto|].
  destruct (HeaderError p1); simpl; auto.
Qed.

(** *** Well-formed input *)

Lemma read_items_K (ident : Z) its w ws (t : Triangle) :
  MatchString (identRegexps ident) w = true ->
  read_items (K ident :: its) (w :: ws) t = read_items its ws t.
Proof. simpl. now intros ->. Qed.

Lemma read_items_Coord (f : ref float32) its w ws (t : Triangle) x :
  ParseFloat32 w = Some x ->
  read_items (Coord f :: its) (w :: ws) t = read_items its ws (store f x t).
Proof. simpl. now intros ->. Qed.

(** The words of a well-formed facet block are accepted step by step and
    build the triangle the block denotes. *)
Lemma facet_value_read (f : facet_text) (t : Triangle) :
  facet_value f = Some t ->
  read_items facet_grammar (facet_words f) Triangle_zero = Some t.
Proof.
  destruct f as [[[nx ny] nz] [[ax ay] az] [[bx b_y] bz] [[cx cy] cz]].
  unfold facet_value, coords_value.
  cbn [text_normal text_vertex1 text_vertex2 text_vertex3].
  destruct (ParseFloat32 nx) eqn:Hnx; [|discriminate].
  destruct (ParseFloat32 ny) eqn:Hny; [|discriminate].
  destruct (ParseFloat32 nz) eqn:Hnz; [|discriminate].
  destruct (ParseFloat32 ax) eqn:Hax; [|discriminate].
  destruct (ParseFloat32 ay) eqn:Hay; [|discriminate].
  destruct (ParseFloat32 az) eqn:Haz; [|discriminate].
  destruct (ParseFloat32 bx) eqn:Hbx; [|discriminate].
  destruct (ParseFloat32 b_y) eqn:Hby; [|discriminate].
  destruct (ParseFloat32 bz) eqn:Hbz; [|discriminate].
  destruct (ParseFloat32 cx) eqn:Hcx; [|discriminate].
  destruct (ParseFloat32 cy) eqn:Hcy; [|discriminate].
  destruct (ParseFloat32 cz) eqn:Hcz; [|discriminate].
  intros H; injection H as <-.
  unfold facet_words, facet_grammar, point_items, coords_words.
  cbn [app text_normal text_vertex1 text_vertex2 text_vertex3].
  repeat first [ rewrite read_items_K by reflexivity
               | erewrite read_items_Coord by eassumption ].
  reflexivity.
Qed.

Lemma TriangleLoop_iter_at_endsolid (p : parser) (g : globals) :
  currentWord p = "endsolid" -> TriangleLoop_iter (p, g) = inr (p, g).
Proof.
  intros W. unfold TriangleLoop_iter, isCurrentTokenIdent. rewrite W.
  change (MatchString (identRegexps idEndsolid) "endsolid") with true.
  now rewrite andb_false_r.
Qed.

Lemma TriangleLoop_iter_at_facet (p : parser) (g : globals) :
  eof p = false -> currentWord p = "facet" ->
  TriangleLoop_iter (p, g) =
  let '(ok, p2, t) := parseFacet p Triangle_zero in
  if ok then inl (p2, append_triangle t g)
  else inl (snd (skipToToken sync (set_TrianglesSkipped true p2)), g).
Proof.
  intros E W. unfold TriangleLoop_iter, isCurrentTokenIdent. rewrite E, W.
  change (MatchString (identRegexps idEndsolid) "facet") with false.
  change (MatchString (identRegexps idFacet) "facet") with true.
  reflexivity.
Qed.

(** On well-formed facet blocks followed by [endsolid] the triangle loop
    appends one triangle per block, in order, records nothing and stops
    at [endsolid]. *)
Lemma TriangleLoop_wellformed (fs : list facet_text) :
  forall ts trailing p g,
    Forall2 (fun f t => facet_value f = Some t) fs ts ->
    map snd (cursor p) = flat_map facet_words fs ++ "endsolid" :: trailing ->
    clean p ->
    let r := TriangleLoop p g in
    map snd (cursor (fst r)) = "endsolid" :: trailing /\
    clean (fst r) /\
    errors (fst r) = errors p /\
    HeaderError (fst r) = HeaderError p /\
    TrianglesSkipped (fst r) = TrianglesSkipped p /\
    name (snd r) = name g /\
    triangles (snd r) = triangles g ++ ts.
Proof.
  induction fs as [|f fs IH]; intros ts trailing p g Hv Hc Hcl;
    inversion Hv as [|? t ? ts' Hf Hv']; subst; cbn [flat_map] in Hc.
  - simpl in Hc.
    destruct (cursor p) as [|[n w] rest] eqn:C; [discriminate|].
    simpl in Hc. injection Hc as -> Hrest.
    apply cursor_cons_inv in C as (E & N & W & U).
    cbv zeta. rewrite TriangleLoop_unfold, TriangleLoop_iter_at_endsolid by auto.
    cbn [fst snd]. rewrite app_nil_r.
    conj; auto.
    rewrite (cursor_live _ E), U, W. simpl. now rewrite Hrest.
  - rewrite <- app_assoc in Hc.
    apply map_eq_app in Hc as (toks & rest & C & Hw & Hrest).
    assert (Hhead : exists n toks', toks = (n, "facet") :: toks').
    { destruct toks as [|[n w] toks']; [discriminate|].
      injection Hw as -> _. eauto. }
    destruct Hhead as (n & toks' & ->).
    pose proof C as C'. simpl in C'.
    apply cursor_cons_inv in C' as (E & _ & W & _).
    apply facet_value_read in Hf. rewrite <- Hw in Hf.
    destruct (run_items_accept _ _ p Triangle_zero _ _ Hf C)
      as (p' & R & Cp' & M & Er & Cl).
    cbv zeta. rewrite TriangleLoop_unfold, TriangleLoop_iter_at_facet by auto.
    rewrite parseFacet_items, R.
    rewrite <- Cp' in Hrest.
    destruct (IH _ _ p' (append_triangle t g) Hv' Hrest (Cl Hcl))
      as (I1 & I2 & I3 & I4 & I5 & I6 & I7).
    destruct M as [[_ _ _ Mh _ _ _] Ms].
    conj; auto; try congruence.
    + rewrite I3. apply Er. auto.
    + rewrite I7. simpl. now rewrite <- app_assoc.
Qed.

(** C5.  The input is a header line beginning with [solid ], then lines
    whose words are those of N well-formed facet blocks followed by
    [endsolid] (and whatever follows it), read without failure.  Then
    [Parse] returns true, the N triangles the blocks denote are appended to
    the triangle list in the order of the blocks (so exactly N triangles
    result from a parse that starts with the empty list), and no error is
    recorded. *)
Theorem C5_well_formed_input_parses_clean
  (lines : Scanner (list byte)) (g : globals)
  (hdr : list byte) (body : list (list byte))
  (fs : list facet_text) (ts : list Triangle) (trailing : list string) :
  failure lines = None ->
  pending lines = hdr :: body ->
  HasPrefix hdr expectedASCIIHeaderPrefix = true ->
  ScanWords hdr <> [] ->
  flat_map ScanWords body =
    flat_map facet_words fs ++ "endsolid" :: trailing ->
  Forall2 (fun f t => facet_value f = Some t) fs ts ->
  let '(success, p', g') := Parse (newParser lines) g in
  success = true /\
  triangles g' = triangles g ++ ts /\
  (triangles g = [] -> List.length (triangles g') = List.length fs) /\
  errors p' = None /\
  HeaderError p' = false /\ TrianglesSkipped p' = false.
Proof.
  intros Hfail Hpend Hprefix Hwords Hbody Hvalues.
  destruct (ScanWords hdr) as [|w ws] eqn:Hw; [contradiction|clear Hwords].
  (* the parser [newParser] returns stands on the header line *)
  set (p0 := newParser lines).
  assert (H0 : eof p0 = false /\ currentLine p0 = hdr /\ line p0 = 0 + 1 /\
               errors p0 = None /\ HeaderError p0 = false /\
               TrianglesSkipped p0 = false /\
               pending (lineScanner p0) = body /\
               failure (lineScanner p0) = None /\
               failure (wordScanner p0) = None).
  { unfold p0, newParser, nextLine. simpl. rewrite Hpend. simpl.
    unfold nextWord_with, Scan. simpl. rewrite Hw. simpl. conj; auto. }
  destruct H0 as (E0 & L0 & N0 & Er0 & Hh0 & Hs0 & Pb & Fl & Fw).
  (* the header is accepted and the next line read *)
  unfold Parse, Parse_facets. rewrite E0.
  unfold parseASCIIHeaderLine. rewrite E0, L0, Hprefix. cbn [negb].
  destruct (nextLine p0) as [more p1] eqn:NL.
  unfold nextLine in NL.
  destruct (nextLine_from_spec _ _ _ _ E0 eq_refl NL)
    as (C1 & _ & _ & Hh1 & Hs1 & Fl1 & Fw1 & Er1 & _).
  cbn [snd].
  set (g1 := set_name _ g).
  set (p2 := set_HeaderError false p1).
  assert (Cl2 : clean p2) by (split; simpl; [auto|congruence]).
  assert (C2 : map snd (cursor p2) =
               flat_map facet_words fs ++ "endsolid" :: trailing).
  { change (cursor p2) with (cursor p1).
    now rewrite C1, Pb, map_snd_numbered. }
  pose proof (TriangleLoop_wellformed fs ts trailing p2 g1 Hvalues C2 Cl2)
    as T. cbv zeta in T.
  destruct (TriangleLoop p2 g1) as [p3 g3]. cbn [fst snd] in T.
  destruct T as (C3 & Cl3 & Er3 & Hh3 & Hs3 & _ & T3).
  (* the terminator is there and is consumed *)
  unfold terminator_check. rewrite Hh3, Hs3. simpl.
  rewrite Hs1, Hs0. cbn [negb].
  destruct (cursor p3) as [|[n w3] rest3] eqn:Cp3; [discriminate|].
  simpl in C3. injection C3 as -> _.
  apply cursor_cons_inv in Cp3 as (E3 & _ & W3 & _).
  rewrite consumeToken_endsolid, W3. simpl.
  destruct (nextWord p3) as [more4 p4] eqn:N4.
  destruct (nextWord_spec _ _ _ E3 N4) as [_ St]. simpl.
  conj; auto.
  - intros Hnil. rewrite T3. simpl. rewrite Hnil. simpl.
    symmetry. eapply Forall2_length; eauto.
  - rewrite (st_errors _ _ _ St) by auto. rewrite Er3. simpl.
    rewrite Er1 by (right; assumption). assumption.
  - now rewrite (st_header _ _ _ St), Hh3.
  - now rewrite (st_skipped _ _ _ St), Hs3, <- Hs0, <- Hs1.
Qed.

(** *** Malformed facets *)

Lemma Parse_facets_entry (p : parser) (g : globals) :
  eof p = false ->
  Parse_facets p g =
  TriangleLoop (fst (loop_entry p g)) (snd (loop_entry p g)).
Proof.
  intros E. unfold Parse_facets, loop_entry. rewrite E.
  now destruct (parseASCIIHeaderLine p g) as [[ok p1] g1].
Qed.

(** *** Termination and forward progress *)

Lemma progress_trans (p q r : parser) :
  progress p q -> progress q r -> progress p r.
Proof.
  unfold progress.
  intros ([s1 H1] & L1 & E1) ([s2 H2] & L2 & E2). conj; auto; try lia.
  exists (s1 ++ s2). now rewrite H1, H2, app_assoc.
Qed.

Lemma forward_progress (p q : parser) : forward p q -> progress p q.
Proof. intros [? ? ? _ _ _ _]. unfold progress. now conj. Qed.

(** [nextLine] leaves the words of the current line behind and stands on
    the first word of the lines that follow. *)
Lemma nextLine_progress (p : parser) :
  eof p = false -> failure (wordScanner p) = None ->
  progress p (snd (nextLine p)) /\
  failure (wordScanner (snd (nextLine p))) = None.
Proof.
  intros E Fw. destruct (nextLine p) as [more p'] eqn:NL.
  unfold nextLine in NL.
  destruct (nextLine_from_spec _ _ _ _ E eq_refl NL)
    as (C & Hm & L & _ & _ & _ & Fw' & _ & _).
  simpl. unfold progress. conj; auto; [|congruence].
  rewrite (cursor_live _ E), C. unfold upcoming. rewrite Fw.
  exists ((line p, currentWord p) ::
          map (pair (line p)) (pending (wordScanner p))).
  reflexivity.
Qed.

Lemma newParser_words (lines : Scanner (list byte)) :
  failure (wordScanner (newParser lines)) = None.
Proof.
  unfold newParser.
  match goal with |- context [nextLine ?i] => apply (nextLine_progress i) end;
    reflexivity.
Qed.

Lemma terminator_check_progress (p : parser) :
  progress p (snd (terminator_check p)).
Proof.
  unfold terminator_check, consumeToken.
  destruct (negb (HeaderError p)), (negb (TrianglesSkipped p));
    try (apply forward_progress, forward_refl).
  destruct (negb _); simpl; apply forward_progress, moves_forward;
    [apply addError_moves|apply nextWord_moves].
Qed.

Lemma set_HeaderError_progress (b : bool) (p : parser) :
  progress p (set_HeaderError b p).
Proof. unfold progress; simpl. conj; auto; try lia. now exists []. Qed.

Lemma loop_entry_progress (p : parser) (g : globals) :
  eof p = false -> failure (wordScanner p) = None ->
  progress p (fst (loop_entry p g)).
Proof.
  intros E Fw. unfold loop_entry, parseASCIIHeaderLine. rewrite E.
  destruct (negb (HasPrefix (currentLine p) expectedASCIIHeaderPrefix));
    cbn [fst snd].
  - eapply progress_trans;
      [apply forward_progress, moves_forward,
         (addError_moves ErrInvalidSintax)|].
    eapply progress_trans; [|apply set_HeaderError_progress].
    now apply nextLine_progress.
  - eapply progress_trans; [|apply set_HeaderError_progress].
    now apply nextLine_progress.
Qed.

Lemma Parse_progress (lines : Scanner (list byte)) (g : globals) :
  progress (newParser lines) (snd (fst (Parse (newParser lines) g))).
Proof.
  pose proof (newParser_words lines) as Fw.
  set (p0 := newParser lines) in *.
  assert (H : progress p0 (fst (Parse_facets p0 g))).
  { destruct (eof p0) eqn:E.
    - unfold Parse_facets. rewrite E. unfold progress. simpl.
      conj; auto; try lia. now exists [].
    - rewrite Parse_facets_entry by assumption.
      eapply progress_trans; [apply loop_entry_progress; assumption|].
      apply forward_progress, TriangleLoop_forward. }
  unfold Parse. destruct (Parse_facets p0 g) as [p1 g1]. cbn [fst] in H.
  pose proof (terminator_check_progress p1) as T.
  destruct (terminator_check p1) as [ok p2]. simpl in *.
  eapply progress_trans; eauto.
Qed.

(** C8.  Skip-forward on [facet]/[endsolid] from any parser state [p]
    ends within one iteration more than there are words left; it reports
    [facet] or [endsolid] with the cursor on that word, or none at the end
    of the stream; the cursor only moves forward, word by word across the
    lines, and stops on the first of the two keywords from the current
    word on.  The triangle loop of the parse of any input ends within its
    budget, every iteration that continues it leaves strictly fewer tokens
    ahead, every advance of a live cursor drops exactly the current token
    and never lowers the line number, and from [newParser] to the end of
    [Parse] the tokens ahead only shrink to a suffix while the line number
    only grows. *)
Theorem C8_skip_and_parse_terminate
  (lines : Scanner (list byte)) (g : globals) (p : parser) (fuel : nat) :
  (S (remaining p) <= fuel)%nat ->
  (budget (fst (loop_entry (newParser lines) g)) <= fuel)%nat ->
  loop fuel (skipToToken_iter sync) p = Some (skipToToken sync p) /\
  found_at (fst (skipToToken sync p)) (snd (skipToToken sync p)) /\
  forward p (snd (skipToToken sync p)) /\
  (eof p = false -> cursor (snd (skipToToken sync p)) = resync (cursor p)) /\
  loop fuel TriangleLoop_iter (loop_entry (newParser lines) g) =
    Some (TriangleLoop (fst (loop_entry (newParser lines) g))
                       (snd (loop_entry (newParser lines) g))) /\
  (forall s s', TriangleLoop_iter s = inl s' ->
     (List.length (cursor (fst s')) < List.length (cursor (fst s)))%nat) /\
  (eof p = false ->
   cursor p = (line p, currentWord p) :: cursor (snd (nextWord p))) /\
  line p <= line (snd (nextWord p)) /\
  progress (newParser lines) (snd (fst (Parse (newParser lines) g))).
Proof.
  intros Hskip Hloop.
  destruct (skipToToken sync p) as [found p'] eqn:Sk.
  destruct (skipToToken_sync_spec _ _ _ _ (Nat.lt_succ_diag_r _) Sk)
    as (M & F & C & _ & _).
  cbn [fst snd]. conj; auto.
  - rewrite <- Sk. now apply skipToToken_terminates.
  - now apply moves_forward.
  - now apply C.
  - destruct (loop_entry (newParser lines) g) as [pe ge].
    now apply TriangleLoop_terminates.
  - apply TriangleLoop_iter_decreasing.
  - apply nextWord_shrinks.
  - apply (fw_line _ _ (moves_forward _ _ (nextWord_moves p))).
  - apply Parse_progress.
Qed.

(** *** CountTriangles *)

(** Whenever the file opens, [CountTriangles] returns a nil error. *)
Lemma CountTriangles_error_nil
  (fs : FileSystem) (filepath : string) (g : globals)
  (scanner : Scanner (list byte)) :
  fs filepath = inl scanner ->
  snd (fst (CountTriangles fs filepath g)) = None.
Proof.
  intros H. unfold CountTriangles, Reader. rewrite H.
  now destruct (Parse (newParser scanner) g) as [[ok p] g1].
Qed.

(** C4, amended.  When the file opens, the count [CountTriangles] returns
    is the length of the triangle list, a non-negative integer; when the
    open fails, it returns the count -1 together with an empty name and
    the error of the open, and leaves the package variables alone. *)
Theorem C4_count_nonnegative_when_opened
  (fs : FileSystem) (filepath : string) (g : globals) :
  let '((nm, count, err), g') := CountTriangles fs filepath g in
  match fs filepath with
  | inl _ => 0 <= count /\ count = Z.of_nat (List.length (triangles g'))
  | inr e => count = -1 /\ nm = "" /\ err = Some e /\ g' = g
  end.
Proof.
  unfold CountTriangles, Reader. destruct (fs filepath) as [scanner|e].
  - destruct (Parse (newParser scanner) g) as [[ok p] g1]. split; [lia|auto].
  - auto.
Qed.

(** ** Further properties of the parser *)

(** *** The cursor and the line counter *)

Lemma MatchString_empty (ident : Z) :
  MatchString (identRegexps ident) "" = false.
Proof.
  unfold identRegexps.
  repeat match goal with
         | |- context [if ?b then _ else _] => destruct b
         end; reflexivity.
Qed.

Lemma nextWord_settled (p : parser) :
  settled p -> settled (snd (nextWord p)).
Proof.
  intros S. destruct (eof p) eqn:E.
  - now rewrite nextWord_eof.
  - destruct (nextWord p) as [more p'] eqn:N.
    destruct (nextWord_spec _ _ _ E N) as [_ St]. exact (st_end _ _ _ St).
Qed.

Lemma cursor_nextWord (p : parser) :
  cursor (snd (nextWord p)) = tl (cursor p).
Proof.
  destruct (eof p) eqn:E.
  - rewrite nextWord_eof by assumption. simpl. now rewrite cursor_eof.
  - now rewrite (nextWord_shrinks _ E).
Qed.

Lemma cursor_nil (p : parser) : cursor p = [] -> eof p = true.
Proof. unfold cursor. destruct (eof p); [reflexivity|discriminate]. Qed.

(** The parser [newParser] returns stands on the first word of the input,
    with nothing recorded unless the source failed before any word. *)
Lemma newParser_spec (lines : Scanner (list byte)) :
  let p := newParser lines in
  cursor p = numbered 0 (pending lines) /\
  settled p /\
  failure (wordScanner p) = None /\
  failure (lineScanner p) = failure lines /\
  HeaderError p = false /\ TrianglesSkipped p = false /\
  (eof p = false \/ failure lines = None -> errors p = None).
Proof.
  unfold newParser.
  match goal with |- context [nextLine ?i] => set (i0 := i) end.
  destruct (nextLine i0) as [more p] eqn:NL. unfold nextLine in NL.
  destruct (nextLine_from_spec _ _ _ _ (eq_refl : eof i0 = false) eq_refl NL)
    as (C & _ & _ & Hh & Hs & Fl & Fw & Er & En).
  cbv zeta. cbn [snd]. conj; auto.
Qed.

Lemma skipn_tl {A : Type} (k : nat) (l : list A) :
  tl (skipn k l) = skipn (S k) l.
Proof.
  revert l; induction k as [|k IH]; intros [|x l]; simpl; auto.
Qed.

Lemma cursor_advance (k : nat) (p : parser) :
  cursor (advance k p) = skipn k (cursor p).
Proof.
  induction k as [|k IH]; [reflexivity|].
  change (advance (S k) p) with (snd (nextWord (advance k p))).
  rewrite cursor_nextWord, IH. apply skipn_tl.
Qed.

Lemma nth_error_skipn_hd {A : Type} (k : nat) (l : list A) :
  nth_error l k = hd_error (skipn k l).
Proof.
  revert l; induction k as [|k IH]; intros [|x l]; simpl; auto.
Qed.

(** X1.  After [k] advances from the start, the parser stands on the word
    number [k] of the input (counting from 0) and its line counter is the
    number of the line holding that word, the first line being line 1 and
    lines without words being counted; when the input has no such word the
    end of the stream is set. *)
Theorem X1_line_counter_is_line_of_current_word
  (lines : Scanner (list byte)) (k : nat) :
  let p := advance k (newParser lines) in
  match nth_error (numbered 0 (pending lines)) k with
  | Some (n, w) => eof p = false /\ line p = n /\ currentWord p = w
  | None => eof p = true
  end.
Proof.
  cbv zeta.
  pose proof (cursor_advance k (newParser lines)) as C.
  destruct (newParser_spec lines) as (C0 & _). rewrite C0 in C.
  rewrite nth_error_skipn_hd.
  destruct (skipn k (numbered 0 (pending lines))) as [|[n w] rest]; simpl.
  - now apply cursor_nil.
  - apply cursor_cons_inv in C. tauto.
Qed.

(** *** Input without a word *)

Lemma nextLine_from_blank (ls : list (list byte)) :
  forall p,
    Forall (fun l => ScanWords l = []) ls ->
    eof p = false ->
    let p' := snd (nextLine_from ls p) in
    eof p' = true /\ currentWord p' = "" /\
    line p' = line p + Z.of_nat (List.length ls) /\
    HeaderError p' = HeaderError p /\
    TrianglesSkipped p' = TrianglesSkipped p.
Proof.
  induction ls as [|l ls IH]; intros p Hb E; cbv zeta.
  - simpl. destruct (failure (lineScanner p)); simpl; conj; auto; lia.
  - inversion Hb as [|? ? Hl Hb']; subst.
    cbn [nextLine_from]. unfold nextWord_with. cbn [eof take_line].
    rewrite E. unfold Scan. cbn [wordScanner take_line NewScanner pending failure].
    rewrite Hl.
    match goal with |- context [nextLine_from ls ?q] =>
      destruct (IH q Hb' E) as (I1 & I2 & I3 & I4 & I5) end.
    conj; auto. rewrite I3. cbn [line take_line List.length]. lia.
Qed.

(** X2.  When no line of the input holds a word (the input is empty or all
    blank), whether or not the source then reports a read failure, [Parse]
    returns false with [HeaderError] set, leaves the name and the triangle
    list as they were, and its error value is the empty-input error alone,
    tagged with the number of lines read (0 for an empty input). *)
Theorem X2_input_without_words
  (lines : Scanner (list byte)) (g : globals) :
  Forall (fun l => ScanWords l = []) (pending lines) ->
  let '(success, p', g') := Parse (newParser lines) g in
  success = false /\ g' = g /\ HeaderError p' = true /\
  errors p' =
    Some (Joined [Errorf_line (Z.of_nat (List.length (pending lines)))
                              ErrEOF]).
Proof.
  intros Hb. unfold newParser.
  match goal with |- context [nextLine ?i] => set (i0 := i) end.
  destruct (nextLine_from_blank _ i0 Hb eq_refl) as (E & _ & L & _ & _).
  change (nextLine_from (pending lines) i0) with (nextLine i0) in *.
  set (p0 := snd (nextLine i0)) in *.
  unfold Parse, Parse_facets. rewrite E. unfold terminator_check.
  cbn. conj; auto. now rewrite L.
Qed.

(** *** Only well-formed blocks yield triangles *)

Lemma settled_live (p : parser) : eof p = false -> settled p.
Proof. unfold settled. intros E H. congruence. Qed.

Lemma settled_addError (msg : error) (p : parser) :
  settled p -> settled (addError msg p).
Proof. auto. Qed.

Lemma live_of_match (ident : Z) (p : parser) :
  settled p ->
  MatchString (identRegexps ident) (currentWord p) = true ->
  eof p = false.
Proof.
  intros S M. destruct (eof p) eqn:E; [|reflexivity].
  rewrite (S E), MatchString_empty in M. discriminate.
Qed.

(** A step that succeeds has consumed one word, which it accepts. *)
Lemma run_item_success (it : item) (p : parser) (t : Triangle) p' t' :
  settled p ->
  run_item it p t = (true, p', t') ->
  exists n w,
    cursor p = (n, w) :: cursor p' /\ item_accepts it w = true /\
    t' = item_store it w t /\ settled p'.
Proof.
  intros S. destruct it as [ident|f]; simpl.
  - unfold token, consumeToken.
    destruct (MatchString (identRegexps ident) (currentWord p)) eqn:M;
      cbn [negb]; [|discriminate].
    intros H; injection H as <- <-.
    pose proof (live_of_match _ _ S M) as E.
    exists (line p), (currentWord p). conj; auto.
    + now apply nextWord_shrinks.
    + now apply nextWord_settled.
  - unfold parseFloat32. destruct (eof p) eqn:E; [discriminate|].
    destruct (ParseFloat32 (currentWord p)) as [x|] eqn:PF; [|discriminate].
    intros H; injection H as <- <-.
    exists (line p), (currentWord p). rewrite PF. conj; auto.
    + now apply nextWord_shrinks.
    + now apply nextWord_settled.
Qed.

Lemma run_item_settled (it : item) (p : parser) (t : Triangle) ok p' t' :
  settled p -> run_item it p t = (ok, p', t') -> settled p'.
Proof.
  intros S. destruct it as [ident|f]; simpl.
  - unfold token, consumeToken.
    destruct (negb _); intros H; injection H as <- <- <-;
      [assumption|now apply nextWord_settled].
  - unfold parseFloat32. destruct (eof p).
    + intros H; injection H as <- <- <-. assumption.
    + destruct (ParseFloat32 _); intros H; injection H as <- <- <-;
        [now apply nextWord_settled|assumption].
Qed.

Lemma run_items_settled (its : list item) :
  forall p t ok p' t',
    settled p -> run_items its p t = (ok, p', t') -> settled p'.
Proof.
  induction its as [|it its IH]; intros p t ok p' t' S; simpl.
  - intros H; injection H as <- <- <-. assumption.
  - unfold andthen. destruct (run_item it p t) as [[ok1 p1] t1] eqn:R.
    apply run_item_settled in R; auto. destruct ok1.
    + intros H. eapply IH; eauto.
    + intros H; injection H as <- <- <-. assumption.
Qed.

Lemma run_items_success (its : list item) :
  forall p t p' t',
    settled p ->
    run_items its p t = (true, p', t') ->
    exists toks,
      cursor p = toks ++ cursor p' /\
      read_items its (map snd toks) t = Some t'.
Proof.
  induction its as [|it its IH]; intros p t p' t' S; simpl.
  - intros H; injection H as <- <-. now exists [].
  - unfold andthen. destruct (run_item it p t) as [[ok1 p1] t1] eqn:R.
    destruct ok1; [|discriminate].
    apply run_item_success in R as (n & w & C & A & -> & S1); auto.
    intros H. apply IH in H as (toks & C1 & Rd); auto.
    exists ((n, w) :: toks). simpl. rewrite A. split; [|assumption].
    now rewrite C, C1.
Qed.

Lemma read_items_K_inv (ident : Z) its ws (t t' : Triangle) :
  In ident [idSolid; idFacet; idNormal; idOuter; idLoop; idVertex;
            idEndloop; idEndfacet; idEndsolid] ->
  read_items (K ident :: its) ws t = Some t' ->
  exists ws', ws = idents ident :: ws' /\ read_items its ws' t = Some t'.
Proof.
  intros Hin. destruct ws as [|w ws']; simpl; [discriminate|].
  rewrite (match_keyword _ _ Hin).
  destruct (String.eqb w (idents ident)) eqn:E; [|discriminate].
  apply String.eqb_eq in E. subst w. eauto.
Qed.

Lemma read_items_Coord_inv (f : ref float32) its ws (t t' : Triangle) :
  read_items (Coord f :: its) ws t = Some t' ->
  exists w x ws',
    ws = w :: ws' /\ ParseFloat32 w = Some x /\
    read_items its ws' (store f x t) = Some t'.
Proof.
  destruct ws as [|w ws']; simpl; [discriminate|].
  destruct (ParseFloat32 w) as [x|] eqn:E; [|discriminate]. eauto 6.
Qed.

(** The words the facet grammar accepts are exactly the words of a facet
    block whose twelve coordinates are numbers. *)
Lemma read_facet_inv (ws : list string) (t : Triangle) :
  read_items facet_grammar ws Triangle_zero = Some t ->
  exists f, ws = facet_words f /\ facet_value f = Some t.
Proof.
  unfold facet_grammar, point_items. cbn [app]. intros H.
  assert (Kw : forall ident, In ident [idFacet; idNormal; idOuter; idLoop;
                                       idVertex; idEndloop; idEndfacet] ->
               In ident [idSolid; idFacet; idNormal; idOuter; idLoop;
                         idVertex; idEndloop; idEndfacet; idEndsolid]).
  { simpl. intuition. }
  apply read_items_K_inv in H as (? & -> & H); [|apply Kw; simpl; auto 10].
  apply read_items_K_inv in H as (? & -> & H); [|apply Kw; simpl; auto 10].
  apply read_items_Coord_inv in H as (nx & ? & ? & -> & Pnx & H).
  apply read_items_Coord_inv in H as (ny & ? & ? & -> & Pny & H).
  apply read_items_Coord_inv in H as (nz & ? & ? & -> & Pnz & H).
  apply read_items_K_inv in H as (? & -> & H); [|apply Kw; simpl; auto 10].
  apply read_items_K_inv in H as (? & -> & H); [|apply Kw; simpl; auto 10].
  apply read_items_K_inv in H as (? & -> & H); [|apply Kw; simpl; auto 10].
  apply read_items_Coord_inv in H as (ax & ? & ? & -> & Pax & H).
  apply read_items_Coord_inv in H as (ay & ? & ? & -> & Pay & H).
  apply read_items_Coord_inv in H as (az & ? & ? & -> & Paz & H).
  apply read_items_K_inv in H as (? & -> & H); [|apply Kw; simpl; auto 10].
  apply read_items_Coord_inv in H as (bx & ? & ? & -> & Pbx & H).
  apply read_items_Coord_inv in H as (b_y & ? & ? & -> & Pby & H).
  apply read_items_Coord_inv in H as (bz & ? & ? & -> & Pbz & H).
  apply read_items_K_inv in H as (? & -> & H); [|apply Kw; simpl; auto 10].
  apply read_items_Coord_inv in H as (cx & ? & ? & -> & Pcx & H).
  apply read_items_Coord_inv in H as (cy & ? & ? & -> & Pcy & H).
  apply read_items_Coord_inv in H as (cz & ? & ? & -> & Pcz & H).
  apply read_items_K_inv in H as (? & -> & H); [|apply Kw; simpl; auto 10].
  apply read_items_K_inv in H as (last & -> & H); [|apply Kw; simpl; auto 10].
  destruct last; simpl in H; [|discriminate]. injection H as <-.
  exists {| text_normal := (nx, ny, nz);
            text_vertex1 := (ax, ay, az);
            text_vertex2 := (bx, b_y, bz);
            text_vertex3 := (cx, cy, cz) |}.
  split; [reflexivity|].
  unfold facet_value, coords_value.
  cbn [text_normal text_vertex1 text_vertex2 text_vertex3].
  rewrite Pnx, Pny, Pnz, Pax, Pay, Paz, Pbx, Pby, Pbz, Pcx, Pcy, Pcz.
  reflexivity.
Qed.

Lemma parseFacet_sound (p : parser) (p' : parser) (t : Triangle) :
  settled p ->
  parseFacet p Triangle_zero = (true, p', t) ->
  exists f toks,
    cursor p = toks ++ cursor p' /\
    map snd toks = facet_words f /\
    facet_value f = Some t.
Proof.
  intros S H. rewrite parseFacet_items in H.
  apply run_items_success in H as (toks & C & R); auto.
  apply read_facet_inv in R as (f & W & V). eauto.
Qed.

(** X4.  Whenever [parseFacet] succeeds (from a state in which the current
    word is empty at the end of the stream, as in every state of a parse),
    the words it has consumed are exactly the 21 words of a facet block
    whose twelve coordinates are numbers, and the triangle it has built is
    the one the block denotes. *)
Theorem X4_parseFacet_succeeds_only_on_well_formed_block
  (p : parser) (p' : parser) (t : Triangle) :
  settled p ->
  parseFacet p Triangle_zero = (true, p', t) ->
  exists f toks,
    cursor p = toks ++ cursor p' /\
    map snd toks = facet_words f /\
    facet_value f = Some t.
Proof. apply parseFacet_sound. Qed.

Lemma skipToToken_iter_cases (ident : Z) (p : parser) :
  match skipToToken_iter ident p with
  | inl q => q = snd (nextWord p)
  | inr (_, q) => q = p \/ q = snd (nextWord p)
  end.
Proof.
  unfold skipToToken_iter.
  destruct (MatchString (identRegexps ident) (currentWord p)).
  - destruct (Z.eqb ident (Z.lor idFacet idEndsolid));
      [destruct (MatchString _ _)|]; auto.
  - destruct (nextWord p) as [[] q]; simpl; auto.
Qed.

Lemma skipToToken_settled (n : nat) :
  forall p,
    (List.length (upcoming p) < n)%nat ->
    settled p -> settled (snd (skipToToken sync p)).
Proof.
  induction n as [|n IH]; intros p Hn S; [lia|].
  rewrite skipToToken_unfold.
  pose proof (skipToToken_iter_cases sync p) as Hc.
  pose proof (nextWord_settled p S) as Sn.
  destruct (skipToToken_iter sync p) as [q|[found q]] eqn:It.
  - apply IH; [|now subst q].
    apply skipToToken_iter_decreasing in It. lia.
  - simpl. destruct Hc as [->| ->]; assumption.
Qed.

Lemma TriangleLoop_iter_inr (p : parser) (g : globals) p' g' :
  TriangleLoop_iter (p, g) = inr (p', g') ->
  g' = g /\
  (p' = p \/
   p' = snd (skipToToken sync (addError ErrInvalidExpectedToken p))).
Proof.
  unfold TriangleLoop_iter. fold sync.
  destruct (negb (eof p) && negb (isCurrentTokenIdent idEndsolid p)).
  - destruct (negb (isCurrentTokenIdent idFacet p)).
    + destruct (skipToToken sync (addError ErrInvalidExpectedToken p))
        as [found p1].
      destruct (Z.eqb found idEndsolid || Z.eqb found idNone).
      * intros H; injection H as <- <-. auto.
      * destruct (parseFacet p1 Triangle_zero) as [[[] ?] ?]; discriminate.
    + destruct (parseFacet p Triangle_zero) as [[[] ?] ?]; discriminate.
  - intros H; injection H as <- <-. auto.
Qed.

Lemma TriangleLoop_iter_settled (s s' : parser * globals) :
  TriangleLoop_iter s = inl s' \/ TriangleLoop_iter s = inr s' ->
  settled (fst s) -> settled (fst s').
Proof.
  destruct s as [p g], s' as [p' g']. cbn [fst]. intros [H|H] S.
  - apply TriangleLoop_iter_inl in H
      as (p1 & ok & p2 & t & _ & _ & _ & E1 & _ & PF & R).
    rewrite parseFacet_items in PF.
    apply run_items_settled in PF; [|now apply settled_live].
    destruct ok; destruct R as [-> _]; [assumption|].
    eapply skipToToken_settled; [apply Nat.lt_succ_diag_r|exact PF].
  - apply TriangleLoop_iter_inr in H as [_ [->| ->]]; [assumption|].
    eapply skipToToken_settled; [apply Nat.lt_succ_diag_r|exact S].
Qed.

Lemma TriangleLoop_settled (p : parser) (g : globals) :
  settled p -> settled (fst (TriangleLoop p g)).
Proof.
  apply (TriangleLoop_induction
           (fun s r => settled (fst s) -> settled (fst r))).
  - intros s r H. apply TriangleLoop_iter_settled. auto.
  - intros s s' r H IH S. apply IH.
    eapply TriangleLoop_iter_settled; eauto.
Qed.

Lemma nextLine_settled (p : parser) :
  eof p = false -> settled (snd (nextLine p)).
Proof.
  intros E. destruct (nextLine p) as [more p'] eqn:NL. unfold nextLine in NL.
  destruct (nextLine_from_spec _ _ _ _ E eq_refl NL)
    as (_ & _ & _ & _ & _ & _ & _ & _ & En).
  exact En.
Qed.

Lemma block_in_app (f : facet_text) (pre ws : list string) :
  block_in f ws -> block_in f (pre ++ ws).
Proof.
  intros (a & b & ->). exists (pre ++ a), b. now rewrite <- app_assoc.
Qed.

Lemma TriangleLoop_sound (p : parser) (g : globals) :
  settled p ->
  exists ts,
    triangles (snd (TriangleLoop p g)) = triangles g ++ ts /\
    Forall (fun t => exists f, facet_value f = Some t /\
                               block_in f (map snd (cursor p))) ts.
Proof.
  apply (TriangleLoop_induction
           (fun s r =>
              settled (fst s) ->
              exists ts,
                triangles (snd r) = triangles (snd s) ++ ts /\
                Forall (fun t => exists f,
                            facet_value f = Some t /\
                            block_in f (map snd (cursor (fst s)))) ts)).
  - intros [q h] [q' h'] H _. apply TriangleLoop_iter_inr in H as [-> _].
    exists []. cbn [snd]. now rewrite app_nil_r.
  - intros [q h] [q' h'] r H IH S. cbn [fst snd] in *.
    assert (S' : settled q').
    { apply (TriangleLoop_iter_settled (q, h) (q', h')); auto. }
    destruct (IH S') as (ts & T & F). clear IH.
    destruct (TriangleLoop_iter_forward (q, h) (q', h') (or_introl H))
      as ([[sk Hsk] _ _ _ _ _ _] & _ & _). cbn [fst] in Hsk.
    assert (F' : Forall (fun t => exists f,
                           facet_value f = Some t /\
                           block_in f (map snd (cursor q))) ts).
    { eapply Forall_impl; [|exact F]. intros t (f & V & B).
      exists f. split; [assumption|].
      rewrite Hsk, map_app. now apply block_in_app. }
    apply TriangleLoop_iter_inl in H
      as (p1 & ok & p2 & t & _ & _ & [[[sk1 H1] _ _ _ _ _ _] _] & E1 & _
          & PF & R).
    destruct ok; destruct R as [-> ->].
    + apply parseFacet_sound in PF
        as (f & toks & C & W & V); [|now apply settled_live].
      exists (t :: ts). split.
      * rewrite T. simpl. now rewrite <- app_assoc.
      * constructor; [|assumption].
        exists f. split; [assumption|].
        exists (map snd sk1), (map snd (cursor p2)).
        now rewrite H1, C, !map_app, W.
    + exists ts. auto.
Qed.

Lemma Parse_snd (p : parser) (g : globals) :
  snd (Parse p g) = snd (Parse_facets p g).
Proof.
  unfold Parse. destruct (Parse_facets p g) as [p1 g1].
  now destruct (terminator_check p1).
Qed.

Lemma loop_entry_facts (p : parser) (g : globals) :
  eof p = false ->
  settled (fst (loop_entry p g)) /\
  triangles (snd (loop_entry p g)) = triangles g.
Proof.
  intros E. unfold loop_entry, parseASCIIHeaderLine. rewrite E.
  destruct (negb (HasPrefix (currentLine p) expectedASCIIHeaderPrefix));
    cbn [fst snd]; split; try reflexivity;
    match goal with |- settled (set_HeaderError _ (snd (nextLine ?q))) =>
      apply (nextLine_settled q E) end.
Qed.

(** X5.  Every triangle a parse appends to the triangle list is the value
    of a facet block whose 21 words stand, in order and next to each other,
    among the words of the input, and whose twelve coordinates are
    numbers; the triangles that were in the list before stay in front,
    unchanged. *)
Theorem X5_appended_triangles_are_well_formed_blocks
  (lines : Scanner (list byte)) (g : globals) :
  exists ts,
    triangles (snd (Parse (newParser lines) g)) = triangles g ++ ts /\
    Forall (fun t => exists f,
                facet_value f = Some t /\
                block_in f (flat_map ScanWords (pending lines))) ts.
Proof.
  rewrite Parse_snd.
  destruct (newParser_spec lines) as (C0 & S0 & Fw & _).
  set (p0 := newParser lines) in *.
  destruct (eof p0) eqn:E.
  - unfold Parse_facets. rewrite E. exists []. cbn [snd].
    now rewrite app_nil_r.
  - rewrite Parse_facets_entry by assumption.
    destruct (loop_entry_facts p0 g E) as [Se Te].
    destruct (loop_entry_progress p0 g E Fw) as ([sk Hsk] & _).
    destruct (loop_entry p0 g) as [pe ge]. cbn [fst snd] in *.
    destruct (TriangleLoop_sound pe ge Se) as (ts & T & F).
    exists ts. split; [congruence|].
    eapply Forall_impl; [|exact F]. intros t (f & V & B).
    exists f. split; [assumption|].
    rewrite <- (map_snd_numbered 0), <- C0, Hsk, map_app.
    now apply block_in_app.
Qed.

(** *** Inputs that begin well *)

Lemma TriangleLoop_at_eof (p : parser) (g : globals) :
  eof p = true -> TriangleLoop p g = (p, g).
Proof.
  intros E. rewrite TriangleLoop_unfold. unfold TriangleLoop_iter.
  now rewrite E.
Qed.

(** Over well-formed facet blocks the triangle loop runs one iteration per
    block, appends its triangle and records nothing, whatever follows. *)
Lemma wellformed_blocks_iterate (fs : list facet_text) :
  forall ts btoks rest p g,
    Forall2 (fun f t => facet_value f = Some t) fs ts ->
    cursor p = btoks ++ rest ->
    map snd btoks = flat_map facet_words fs ->
    clean p -> settled p ->
    exists p' g',
      iterates (p, g) (p', g') /\
      cursor p' = rest /\ clean p' /\ settled p' /\
      errors p' = errors p /\
      HeaderError p' = HeaderError p /\
      TrianglesSkipped p' = TrianglesSkipped p /\
      name g' = name g /\
      triangles g' = triangles g ++ ts.
Proof.
  induction fs as [|f fs IH]; intros ts btoks rest p g Hv Hc Hw Hcl Hs;
    inversion Hv as [|? t ? ts' Hf Hv']; subst; cbn [flat_map] in Hw.
  - apply map_eq_nil in Hw. subst btoks. simpl in Hc.
    exists p, g. conj; auto using iterates_here. now rewrite app_nil_r.
  - apply map_eq_app in Hw as (t1 & t2 & -> & W1 & W2).
    rewrite <- app_assoc in Hc.
    assert (Hhead : exists n t1', t1 = (n, "facet") :: t1').
    { destruct t1 as [|[n w] t1']; [discriminate|].
      injection W1 as -> _. eauto. }
    destruct Hhead as (n & t1' & ->).
    pose proof Hc as Hc'. simpl in Hc'.
    apply cursor_cons_inv in Hc' as (E & _ & W & _).
    apply facet_value_read in Hf. rewrite <- W1 in Hf.
    destruct (run_items_accept _ _ p Triangle_zero _ _ Hf Hc)
      as (p1 & R & C1 & [[_ _ _ Mh _ _ _] Ms] & Er & Cl).
    assert (It : TriangleLoop_iter (p, g) = inl (p1, append_triangle t g)).
    { rewrite TriangleLoop_iter_at_facet, parseFacet_items, R by auto.
      reflexivity. }
    assert (S1 : settled p1) by (eapply run_items_settled; eauto).
    destruct (IH ts' t2 rest p1 (append_triangle t g) Hv' C1 W2 (Cl Hcl) S1)
      as (p' & g' & I & I1 & I2 & I3 & I4 & I5 & I6 & I7 & I8).
    exists p', g'. conj; auto; try congruence.
    + eapply iterates_next; eauto.
    + rewrite I4. apply Er. auto.
    + rewrite I8. simpl. now rewrite <- app_assoc.
Qed.

(** An input that begins with a header line and well-formed facet blocks
    brings the triangle loop, with nothing recorded and one triangle per
    block appended, to the tokens [rest] that follow the blocks. *)
Lemma wellformed_start
  (lines : Scanner (list byte)) (g : globals)
  (hdr : list byte) (body : list (list byte))
  (fs : list facet_text) (ts : list Triangle)
  (btoks rest : list (Z * string)) :
  failure lines = None ->
  pending lines = hdr :: body ->
  HasPrefix hdr expectedASCIIHeaderPrefix = true ->
  ScanWords hdr <> [] ->
  numbered 1 body = btoks ++ rest ->
  map snd btoks = flat_map facet_words fs ->
  Forall2 (fun f t => facet_value f = Some t) fs ts ->
  exists p' g',
    Parse_facets (newParser lines) g = TriangleLoop p' g' /\
    cursor p' = rest /\ clean p' /\ settled p' /\
    errors p' = None /\
    HeaderError p' = false /\ TrianglesSkipped p' = false /\
    triangles g' = triangles g ++ ts.
Proof.
  intros Hfail Hpend Hprefix Hwords Hbody Hbt Hvalues.
  destruct (ScanWords hdr) as [|w ws] eqn:Hw; [contradiction|clear Hwords].
  set (p0 := newParser lines).
  assert (H0 : eof p0 = false /\ currentLine p0 = hdr /\ line p0 = 0 + 1 /\
               errors p0 = None /\ HeaderError p0 = false /\
               TrianglesSkipped p0 = false /\
               pending (lineScanner p0) = body /\
               failure (lineScanner p0) = None /\
               failure (wordScanner p0) = None).
  { unfold p0, newParser, nextLine. simpl. rewrite Hpend. simpl.
    unfold nextWord_with, Scan. simpl. rewrite Hw. simpl. conj; auto. }
  destruct H0 as (E0 & L0 & N0 & Er0 & Hh0 & Hs0 & Pb & Fl & Fw).
  rewrite Parse_facets_entry by assumption.
  unfold loop_entry, parseASCIIHeaderLine. rewrite E0, L0, Hprefix.
  cbn [negb fst snd].
  pose proof (nextLine_settled p0 E0) as S1.
  destruct (nextLine p0) as [more p1] eqn:NL.
  unfold nextLine in NL.
  destruct (nextLine_from_spec _ _ _ _ E0 eq_refl NL)
    as (C1 & _ & _ & Hh1 & Hs1 & Fl1 & Fw1 & Er1 & _).
  cbn [snd] in *.
  set (g1 := set_name _ g).
  set (p2 := set_HeaderError false p1).
  assert (Cl2 : clean p2) by (split; simpl; [auto|congruence]).
  assert (C2 : cursor p2 = btoks ++ rest).
  { change (cursor p2) with (cursor p1). now rewrite C1, Pb, N0. }
  destruct (wellformed_blocks_iterate fs ts btoks rest p2 g1
              Hvalues C2 Hbt Cl2 S1)
    as (p' & g' & I & I1 & I2 & I3 & I4 & I5 & I6 & _ & I8).
  exists p', g'. conj; auto.
  - exact (iterates_TriangleLoop _ _ I).
  - rewrite I4. simpl. rewrite Er1 by (right; assumption). assumption.
  - now rewrite I6, <- Hs0, <- Hs1.
Qed.

(** X6.  Header line, N well-formed facet blocks and then the end of the
    input, with no [endsolid]: [Parse] returns false although neither flag
    is set; the N triangles are appended all the same, and the error value
    is the missing-[endsolid] token error. *)
Theorem X6_missing_endsolid_fails_after_appending
  (lines : Scanner (list byte)) (g : globals)
  (hdr : list byte) (body : list (list byte))
  (fs : list facet_text) (ts : list Triangle) :
  failure lines = None ->
  pending lines = hdr :: body ->
  HasPrefix hdr expectedASCIIHeaderPrefix = true ->
  ScanWords hdr <> [] ->
  flat_map ScanWords body = flat_map facet_words fs ->
  Forall2 (fun f t => facet_value f = Some t) fs ts ->
  let '(success, p', g') := Parse (newParser lines) g in
  success = false /\
  triangles g' = triangles g ++ ts /\
  HeaderError p' = false /\ TrianglesSkipped p' = false /\
  errors p' =
    Some (Joined [Errorf_line (line p')
                    (Errorf_ident errInvalidToken "endsolid")]).
Proof.
  intros Hfail Hpend Hprefix Hwords Hbody Hvalues.
  destruct (wellformed_start lines g hdr body fs ts (numbered 1 body) []
              Hfail Hpend Hprefix Hwords)
    as (p1 & g1 & PF & C & Cl & S & Er & Hh & Hs & T); auto.
  { now rewrite app_nil_r. }
  { now rewrite map_snd_numbered. }
  apply cursor_nil in C.
  unfold Parse. rewrite PF, TriangleLoop_at_eof by assumption.
  unfold terminator_check. rewrite Hh, Hs. cbn [negb].
  rewrite consumeToken_endsolid, (S C). cbn. conj; auto.
Qed.

(** *** A facet cut short by the end of the input *)

Lemma run_items_truncated (pre : list item) :
  forall it post toks p t,
    Forall2 (fun i tok => item_accepts i (snd tok) = true) pre toks ->
    cursor p = toks -> settled p -> clean p ->
    exists q t1,
      run_items (pre ++ it :: post) p t =
        (false,
         match it with
         | Coord _ => q
         | K _ => addError (item_error it) q
         end, t1) /\
      eof q = true /\ settled q /\ errors q = errors p /\
      HeaderError q = HeaderError p /\
      TrianglesSkipped q = TrianglesSkipped p.
Proof.
  induction pre as [|i pre IH]; intros it post toks p t Hg Hc S Cl.
  - destruct toks; [|inversion Hg]. apply cursor_nil in Hc.
    exists p, t. conj; auto. simpl. unfold andthen.
    destruct it as [ident|f]; simpl.
    + unfold token, consumeToken. now rewrite (S Hc), MatchString_empty.
    + unfold parseFloat32. now rewrite Hc.
  - destruct toks as [|[m w] toks']; [inversion Hg|].
    inversion Hg as [|? ? ? ? Ha Hg']; subst. simpl in *.
    unfold andthen. rewrite (run_item_accept _ _ _ _ _ _ Hc Ha).
    pose proof Hc as Hc'. apply cursor_cons_inv in Hc' as (E & _ & _ & Hu).
    pose proof (nextWord_settled p S) as S0.
    destruct (nextWord p) as [more q0] eqn:N.
    destruct (nextWord_spec _ _ _ E N) as [Hq St]. cbn [snd] in *.
    rewrite Hu in Hq.
    destruct (IH it post _ q0 (item_store i w t) Hg' Hq S0
                (clean_stepped _ _ _ St Cl))
      as (q & t1 & R & Eq & Sq & Erq & Hhq & Hsq).
    exists q, t1. conj; auto.
    + rewrite Erq. apply (st_errors _ _ _ St). auto.
    + rewrite Hhq. apply (st_header _ _ _ St).
    + rewrite Hsq. apply (st_skipped _ _ _ St).
Qed.

Lemma skipToToken_at_eof (p : parser) :
  eof p = true -> currentWord p = "" -> skipToToken sync p = (idNone, p).
Proof.
  intros E W. rewrite skipToToken_unfold. unfold skipToToken_iter.
  rewrite W, MatchString_empty, nextWord_eof by assumption. reflexivity.
Qed.

(** X7.  Header line, N well-formed facet blocks, then a facet whose words
    are right as far as they go but end with the input.  [Parse] returns
    false with [TrianglesSkipped] set and the N triangles appended.  When
    the step that is due at the end of the input is a coordinate, nothing
    is recorded: the error value is nil although the parse failed.  When
    it is a keyword, the error value is the token error for that keyword. *)
Theorem X7_facet_cut_short_by_end_of_input
  (lines : Scanner (list byte)) (g : globals)
  (hdr : list byte) (body : list (list byte))
  (fs : list facet_text) (ts : list Triangle)
  (btoks good : list (Z * string)) (n0 : Z)
  (pre post : list item) (it : item) :
  failure lines = None ->
  pending lines = hdr :: body ->
  HasPrefix hdr expectedASCIIHeaderPrefix = true ->
  ScanWords hdr <> [] ->
  numbered 1 body = btoks ++ (n0, "facet") :: good ->
  map snd btoks = flat_map facet_words fs ->
  Forall2 (fun f t => facet_value f = Some t) fs ts ->
  facet_grammar = K idFacet :: pre ++ it :: post ->
  Forall2 (fun i tok => item_accepts i (snd tok) = true) pre good ->
  let '(success, p', g') := Parse (newParser lines) g in
  success = false /\
  TrianglesSkipped p' = true /\ eof p' = true /\
  triangles g' = triangles g ++ ts /\
  errors p' =
    match it with
    | Coord _ => None
    | K ident =>
        Some (Joined [Errorf_line (line p')
                        (Errorf_ident errInvalidToken (idents ident))])
    end.
Proof.
  intros Hfail Hpend Hprefix Hwords Hbody Hbt Hvalues Hgr Hgood.
  destruct (wellformed_start lines g hdr body fs ts btoks _
              Hfail Hpend Hprefix Hwords Hbody Hbt Hvalues)
    as (p1 & g1 & PF & C & Cl & S & Er & Hh & Hs & T).
  pose proof C as C'. apply cursor_cons_inv in C' as (E & _ & W & _).
  assert (Hgood' : Forall2 (fun i tok => item_accepts i (snd tok) = true)
                     (K idFacet :: pre) ((n0, "facet") :: good)).
  { constructor; [reflexivity|assumption]. }
  destruct (run_items_truncated (K idFacet :: pre) it post _ p1
              Triangle_zero Hgood' C S Cl)
    as (q & t1 & R & Eq & Sq & Erq & Hhq & Hsq).
  change ((K idFacet :: pre) ++ it :: post)
    with (K idFacet :: pre ++ it :: post) in R.
  rewrite <- Hgr, <- parseFacet_items in R.
  set (q1 := match it with
             | Coord _ => q
             | K _ => addError (item_error it) q
             end) in *.
  assert (Hq1 : eof q1 = true /\ currentWord q1 = "" /\
                HeaderError q1 = HeaderError q).
  { unfold q1. destruct it; simpl; auto. }
  destruct Hq1 as (Eq1 & Wq1 & Hhq1).
  assert (PF' : Parse_facets (newParser lines) g =
                (set_TrianglesSkipped true q1, g1)).
  { rewrite PF, TriangleLoop_unfold, TriangleLoop_iter_at_facet, R by auto.
    rewrite skipToToken_at_eof by assumption. cbn [snd].
    now apply TriangleLoop_at_eof. }
  unfold Parse. rewrite PF'. unfold terminator_check. cbn.
  rewrite Hhq1, Hhq, Hh. cbn. conj; auto.
  unfold q1. destruct it; simpl; [reflexivity|congruence].
Qed.

(** *** Words between facets *)

Lemma resync_skips (junk : list (Z * string)) (m : Z) trailing :
  Forall (fun tok => is_sync (snd tok) = false) junk ->
  resync (junk ++ (m, "endsolid") :: trailing) = (m, "endsolid") :: trailing.
Proof.
  induction 1 as [|[n w] junk Hw _ IH]; [reflexivity|].
  simpl in *. now rewrite Hw.
Qed.

(** X8.  Header line, N well-formed facet blocks, then one or more words
    that are neither [facet] nor [endsolid], then [endsolid].  [Parse]
    returns true with neither flag set and the N triangles appended, yet
    its error value is not nil: it holds the expected-facet-or-endsolid
    error, tagged with the line of the first of those words. *)
Theorem X8_stray_words_are_reported_without_failing
  (lines : Scanner (list byte)) (g : globals)
  (hdr : list byte) (body : list (list byte))
  (fs : list facet_text) (ts : list Triangle)
  (btoks junk trailing : list (Z * string)) (n m : Z) (w : string) :
  failure lines = None ->
  pending lines = hdr :: body ->
  HasPrefix hdr expectedASCIIHeaderPrefix = true ->
  ScanWords hdr <> [] ->
  numbered 1 body = btoks ++ (n, w) :: junk ++ (m, "endsolid") :: trailing ->
  map snd btoks = flat_map facet_words fs ->
  Forall2 (fun f t => facet_value f = Some t) fs ts ->
  Forall (fun tok => is_sync (snd tok) = false) ((n, w) :: junk) ->
  let '(success, p', g') := Parse (newParser lines) g in
  success = true /\
  HeaderError p' = false /\ TrianglesSkipped p' = false /\
  triangles g' = triangles g ++ ts /\
  errors p' = Some (Joined [Errorf_line n ErrInvalidExpectedToken]).
Proof.
  intros Hfail Hpend Hprefix Hwords Hbody Hbt Hvalues Hjunk.
  destruct (wellformed_start lines g hdr body fs ts btoks _
              Hfail Hpend Hprefix Hwords Hbody Hbt Hvalues)
    as (p1 & g1 & PF & C & Cl & S & Er & Hh & Hs & T).
  pose proof C as C'. apply cursor_cons_inv in C' as (E & L & W & _).
  pose proof (Forall_inv Hjunk) as Hw. cbn [snd] in Hw.
  rewrite is_sync_eq in Hw. apply orb_false_iff in Hw as [Wf We].
  (* the word is reported and the cursor goes to [endsolid] *)
  destruct (skipToToken sync (addError ErrInvalidExpectedToken p1))
    as [found p2] eqn:Sk.
  destruct (skipToToken_sync_spec _ _ _ _ (Nat.lt_succ_diag_r _) Sk)
    as ([[_ _ _ Mh _ _ _] Ms] & Fa & Cr & Err & Cl2).
  destruct (Cr E) as [C2 _].
  change (cursor (addError ErrInvalidExpectedToken p1)) with (cursor p1)
    in C2.
  rewrite C in C2.
  change ((n, w) :: junk ++ (m, "endsolid") :: trailing)
    with (((n, w) :: junk) ++ (m, "endsolid") :: trailing) in C2.
  rewrite (resync_skips _ _ _ Hjunk) in C2.
  pose proof C2 as C2'. apply cursor_cons_inv in C2' as (E2 & _ & W2 & _).
  assert (Hfound : found = idEndsolid).
  { destruct Fa as [[_ F]|[[F _]|[_ F]]]; [|assumption|]; congruence. }
  subst found.
  assert (PF' : Parse_facets (newParser lines) g = (p2, g1)).
  { rewrite PF, TriangleLoop_unfold. unfold TriangleLoop_iter.
    fold sync. unfold isCurrentTokenIdent.
    rewrite E, W, !match_keyword by (simpl; auto 10).
    change (idents idEndsolid) with "endsolid".
    change (idents idFacet) with "facet".
    rewrite Wf, We. cbn [negb andb]. now rewrite Sk. }
  unfold Parse. rewrite PF'. unfold terminator_check.
  cbn in Mh, Ms. rewrite Mh, Ms, Hh, Hs. cbn [negb].
  rewrite consumeToken_endsolid, W2, String.eqb_refl.
  destruct (nextWord p2) as [more p3] eqn:N3.
  destruct (nextWord_spec _ _ _ E2 N3) as [_ St]. cbn [snd].
  conj; auto.
  - rewrite (st_header _ _ _ St). congruence.
  - rewrite (st_skipped _ _ _ St). congruence.
  - rewrite (st_errors _ _ _ St) by (right; apply Cl2; exact Cl).
    rewrite Err by auto. simpl. now rewrite L.
Qed.

(** *** The error value holds one error at most *)

Lemma rewrites_refl (p : parser) : rewrites p p.
Proof. now left. Qed.

Lemma rewrites_trans (p q r : parser) :
  rewrites p q -> rewrites q r -> rewrites p r.
Proof.
  unfold rewrites. intros [H1|H1] [H2|H2]; auto.
  - left. congruence.
  - right. destruct H1 as (n & msg & H1). exists n, msg. congruence.
Qed.

Lemma rewrites_addError (msg : error) (p q : parser) :
  errors q = errors p -> rewrites p (addError msg q).
Proof. intros _. right. now exists (line q), msg. Qed.

Lemma rewrites_same (p q : parser) : errors q = errors p -> rewrites p q.
Proof. now left. Qed.

Lemma nextLine_from_rewrites (ls : list (list byte)) :
  forall p, rewrites p (snd (nextLine_from ls p)).
Proof.
  induction ls as [|l ls IH]; intros p; simpl.
  - destruct (failure (lineScanner p)); simpl.
    + now apply rewrites_addError.
    + (apply rewrites_same; reflexivity).
  - unfold nextWord_with. cbn [eof take_line].
    destruct (eof p); [(apply rewrites_same; reflexivity)|].
    unfold Scan. cbn [wordScanner take_line NewScanner pending failure].
    destruct (ScanWords l); [|(apply rewrites_same; reflexivity)].
    eapply rewrites_trans; [|apply IH]. (apply rewrites_same; reflexivity).
Qed.

Lemma nextWord_rewrites (p : parser) : rewrites p (snd (nextWord p)).
Proof.
  unfold nextWord, nextWord_with. destruct (eof p); [(apply rewrites_same; reflexivity)|].
  unfold Scan. destruct (pending (wordScanner p)); [|(apply rewrites_same; reflexivity)].
  destruct (failure (wordScanner p)).
  - now apply rewrites_addError.
  - apply nextLine_from_rewrites.
Qed.

Lemma run_item_rewrites (it : item) (p : parser) (t : Triangle) ok p' t' :
  run_item it p t = (ok, p', t') -> rewrites p p'.
Proof.
  destruct it as [ident|f]; simpl.
  - unfold token, consumeToken.
    destruct (negb _); intros H; injection H as <- <- <-;
      [now apply rewrites_addError|apply nextWord_rewrites].
  - unfold parseFloat32. destruct (eof p).
    + intros H; injection H as <- <- <-. (apply rewrites_same; reflexivity).
    + destruct (ParseFloat32 _); intros H; injection H as <- <- <-;
        [apply nextWord_rewrites|now apply rewrites_addError].
Qed.

Lemma run_items_rewrites (its : list item) :
  forall p t ok p' t', run_items its p t = (ok, p', t') -> rewrites p p'.
Proof.
  induction its as [|it its IH]; intros p t ok p' t'; simpl.
  - intros H; injection H as <- <- <-. (apply rewrites_same; reflexivity).
  - unfold andthen. destruct (run_item it p t) as [[ok1 p1] t1] eqn:R.
    apply run_item_rewrites in R. destruct ok1.
    + intros H. apply IH in H. eapply rewrites_trans; eauto.
    + intros H; injection H as <- <- <-. assumption.
Qed.

Lemma skipToToken_rewrites (n : nat) :
  forall p,
    (List.length (upcoming p) < n)%nat ->
    rewrites p (snd (skipToToken sync p)).
Proof.
  induction n as [|n IH]; intros p Hn; [lia|].
  rewrite skipToToken_unfold.
  pose proof (skipToToken_iter_cases sync p) as Hc.
  pose proof (nextWord_rewrites p) as Rn.
  destruct (skipToToken_iter sync p) as [q|[found q]] eqn:It.
  - subst q. eapply rewrites_trans; [exact Rn|]. apply IH.
    apply skipToToken_iter_decreasing in It. lia.
  - simpl. destruct Hc as [->| ->]; [(apply rewrites_same; reflexivity)|assumption].
Qed.

Lemma TriangleLoop_iter_rewrites (s s' : parser * globals) :
  TriangleLoop_iter s = inl s' \/ TriangleLoop_iter s = inr s' ->
  rewrites (fst s) (fst s').
Proof.
  destruct s as [p g], s' as [p' g']. cbn [fst]. intros [H|H].
  - apply TriangleLoop_iter_inl in H
      as (p1 & ok & p2 & t & _ & Hp1 & _ & _ & _ & PF & R).
    assert (R1 : rewrites p p1).
    { destruct Hp1 as [->|Sk]; [(apply rewrites_same; reflexivity)|].
      eapply rewrites_trans;
        [apply (rewrites_addError ErrInvalidExpectedToken p p eq_refl)|].
      replace p1
        with (snd (skipToToken sync (addError ErrInvalidExpectedToken p)))
        by now rewrite Sk.
      eapply skipToToken_rewrites, Nat.lt_succ_diag_r. }
    rewrite parseFacet_items in PF. apply run_items_rewrites in PF.
    eapply rewrites_trans; [exact R1|].
    eapply rewrites_trans; [exact PF|].
    destruct ok; destruct R as [-> _]; [(apply rewrites_same; reflexivity)|].
    eapply rewrites_trans;
      [|eapply skipToToken_rewrites, Nat.lt_succ_diag_r].
    (apply rewrites_same; reflexivity).
  - apply TriangleLoop_iter_inr in H as [_ [->| ->]]; [(apply rewrites_same; reflexivity)|].
    eapply rewrites_trans;
      [apply (rewrites_addError ErrInvalidExpectedToken p p eq_refl)|].
    eapply skipToToken_rewrites, Nat.lt_succ_diag_r.
Qed.

Lemma TriangleLoop_rewrites (p : parser) (g : globals) :
  rewrites p (fst (TriangleLoop p g)).
Proof.
  apply (TriangleLoop_induction (fun s r => rewrites (fst s) (fst r))).
  - intros s r H. apply TriangleLoop_iter_rewrites. auto.
  - intros s s' r H IH. eapply rewrites_trans; [|exact IH].
    apply TriangleLoop_iter_rewrites. auto.
Qed.

Lemma Parse_rewrites (p : parser) (g : globals) :
  rewrites p (snd (fst (Parse p g))).
Proof.
  assert (H : rewrites p (fst (Parse_facets p g))).
  { unfold Parse_facets. destruct (eof p) eqn:E.
    - cbn [fst]. now apply rewrites_addError.
    - unfold parseASCIIHeaderLine. rewrite E.
      destruct (negb (HasPrefix (currentLine p) expectedASCIIHeaderPrefix));
        cbv beta iota zeta.
      + eapply rewrites_trans;
          [apply (rewrites_addError ErrInvalidSintax p p eq_refl)|].
        eapply rewrites_trans;
          [apply (nextLine_from_rewrites
                    (pending (lineScanner (addError ErrInvalidSintax p))))|].
        eapply rewrites_trans; [|apply TriangleLoop_rewrites].
        apply rewrites_same; reflexivity.
      + eapply rewrites_trans;
          [apply (nextLine_from_rewrites (pending (lineScanner p)))|].
        eapply rewrites_trans; [|apply TriangleLoop_rewrites].
        apply rewrites_same; reflexivity. }
  unfold Parse. destruct (Parse_facets p g) as [p1 g1]. cbn [fst] in H.
  eapply rewrites_trans; [exact H|].
  unfold terminator_check, consumeToken.
  destruct (negb (HeaderError p1)), (negb (TrianglesSkipped p1));
    try (apply rewrites_same; reflexivity).
  destruct (negb _); cbn [fst snd];
    [now apply rewrites_addError|apply nextWord_rewrites].
Qed.

(** X9.  However many errors a parse detects, the error value it ends with
    is nil or the join of exactly one line-tagged error: no parse ever
    holds two diagnostics. *)
Theorem X9_error_value_holds_at_most_one_error
  (lines : Scanner (list byte)) (g : globals) :
  at_most_one (errors (snd (fst (Parse (newParser lines) g)))).
Proof.
  assert (H0 : at_most_one (errors (newParser lines))).
  { unfold newParser.
    match goal with |- context [nextLine ?i] =>
      destruct (nextLine_from_rewrites (pending lines) i) as [H|H] end.
    - left. exact H.
    - right. exact H. }
  destruct (Parse_rewrites (newParser lines) g) as [H|H].
  - now rewrite H.
  - right. exact H.
Qed.

(** *** What a parse adds does not depend on the package variables *)

Lemma TriangleLoop_iter_globals (p : parser) (g : globals) :
  TriangleLoop_iter (p, g) =
  match TriangleLoop_iter (p, globals_init) with
  | inl (p', d) =>
      inl (p', {| name := name g; triangles := triangles g ++ triangles d |})
  | inr (p', _) => inr (p', g)
  end.
Proof.
  assert (Hg : g = {| name := name g; triangles := triangles g ++ [] |}).
  { destruct g. simpl. now rewrite app_nil_r. }
  unfold TriangleLoop_iter.
  destruct (negb (eof p) && negb (isCurrentTokenIdent idEndsolid p));
    [|reflexivity].
  destruct (negb (isCurrentTokenIdent idFacet p)).
  - destruct (skipToToken _ _) as [found p1].
    destruct (Z.eqb found idEndsolid || Z.eqb found idNone); [reflexivity|].
    destruct (parseFacet p1 Triangle_zero) as [[[] p2] t]; [reflexivity|].
    cbn [triangles globals_init]. now rewrite <- Hg.
  - destruct (parseFacet p Triangle_zero) as [[[] p2] t]; [reflexivity|].
    cbn [triangles globals_init]. now rewrite <- Hg.
Qed.

Lemma TriangleLoop_globals (p : parser) :
  forall g,
    fst (TriangleLoop p g) = fst (TriangleLoop p globals_init) /\
    triangles (snd (TriangleLoop p g)) =
      triangles g ++ triangles (snd (TriangleLoop p globals_init)).
Proof.
  remember (List.length (cursor p)) as n eqn:Hn.
  revert p Hn. induction n as [n IH] using lt_wf_ind. intros p Hn g.
  rewrite (TriangleLoop_unfold p g), (TriangleLoop_unfold p globals_init).
  rewrite (TriangleLoop_iter_globals p g).
  destruct (TriangleLoop_iter (p, globals_init)) as [[p' d]|[p' d]] eqn:It.
  - apply TriangleLoop_iter_decreasing in It. cbn [fst] in It.
    assert (Hlt : (List.length (cursor p') < n)%nat) by lia.
    destruct (IH _ Hlt p' eq_refl
                {| name := name g; triangles := triangles g ++ triangles d |})
      as [F1 T1].
    destruct (IH _ Hlt p' eq_refl d) as [F2 T2].
    split; [congruence|].
    rewrite T1, T2. cbn [triangles]. now rewrite app_assoc.
  - apply TriangleLoop_iter_inr in It as [-> _].
    cbn [fst snd triangles globals_init]. now rewrite app_nil_r.
Qed.

Lemma Parse_facets_globals (p : parser) (g : globals) :
  fst (Parse_facets p g) = fst (Parse_facets p globals_init) /\
  triangles (snd (Parse_facets p g)) =
    triangles g ++ triangles (snd (Parse_facets p globals_init)).
Proof.
  unfold Parse_facets. destruct (eof p).
  - cbn [fst snd triangles globals_init]. now rewrite app_nil_r.
  - unfold parseASCIIHeaderLine.
    destruct (eof p);
      [|destruct (negb (HasPrefix (currentLine p)
                                  expectedASCIIHeaderPrefix))];
      cbv beta iota zeta;
      match goal with
      | |- context [TriangleLoop ?q ?h] =>
          destruct (TriangleLoop_globals q h) as [F1 T1];
          match goal with
          | |- context [TriangleLoop q ?h0] =>
              lazymatch h0 with
              | h => fail
              | _ => destruct (TriangleLoop_globals q h0) as [F2 T2]
              end
          end
      end;
      (split; [congruence|]); rewrite T1, T2; cbn [triangles set_name globals_init];
      reflexivity.
Qed.

Lemma Parse_name (p : parser) (g : globals) :
  name (snd (Parse p g)) = name g \/
  forall g', name (snd (Parse p g')) = name (snd (Parse p g)).
Proof.
  rewrite Parse_snd. unfold Parse_facets. destruct (eof p) eqn:E.
  - now left.
  - unfold parseASCIIHeaderLine. rewrite E.
    destruct (negb (HasPrefix (currentLine p) expectedASCIIHeaderPrefix))
      eqn:Hp; cbv beta iota zeta.
    + left.
      match goal with |- context [TriangleLoop ?q g] =>
        destruct (TriangleLoop_forward q g) as (_ & N & _) end.
      exact N.
    + right. intros g'. rewrite Parse_snd. unfold Parse_facets.
      rewrite E. unfold parseASCIIHeaderLine. rewrite E, Hp.
      cbv beta iota zeta.
      repeat match goal with |- context [TriangleLoop ?q ?h] =>
        let N := fresh "N" in
        destruct (TriangleLoop_forward q h) as (_ & N & _);
        rewrite N; clear N end.
      reflexivity.
Qed.

Lemma CountTriangles_opened
  (fs : FileSystem) (filepath : string) (g : globals)
  (scanner : Scanner (list byte)) :
  fs filepath = inl scanner ->
  CountTriangles fs filepath g =
  ((name (snd (Parse (newParser scanner) g)),
    Z.of_nat (List.length (triangles (snd (Parse (newParser scanner) g)))),
    None),
   snd (Parse (newParser scanner) g)).
Proof.
  intros H. unfold CountTriangles, Reader. rewrite H.
  now destruct (Parse (newParser scanner) g) as [[ok p] g1].
Qed.

(** X10.  Two successive calls of [CountTriangles] on a file that opens,
    the second starting from the package variables the first left, return
    the same name and the same nil error, but the second count is larger
    than the first by exactly what the first call added to the count it
    started from: every call counts the triangles of the file once more. *)
Theorem X10_each_call_adds_the_file_again
  (fs : FileSystem) (filepath : string) (g : globals)
  (scanner : Scanner (list byte)) :
  fs filepath = inl scanner ->
  let first := CountTriangles fs filepath g in
  let second := CountTriangles fs filepath (snd first) in
  fst (fst (fst second)) = fst (fst (fst first)) /\
  snd (fst second) = None /\ snd (fst first) = None /\
  snd (fst (fst second)) - snd (fst (fst first)) =
    snd (fst (fst first)) - Z.of_nat (List.length (triangles g)).
Proof.
  intros H. cbv zeta.
  rewrite (CountTriangles_opened fs filepath g scanner H). cbn [fst snd].
  rewrite (CountTriangles_opened fs filepath _ scanner H). cbn [fst snd].
  set (p := newParser scanner).
  set (g1 := snd (Parse p g)).
  conj; auto.
  - destruct (Parse_name p g) as [N|N]; [|apply N].
    destruct (Parse_name p g1) as [N1|N1]; [exact N1|].
    symmetry. apply N1.
  - unfold g1. rewrite !Parse_snd.
    destruct (Parse_facets_globals p (snd (Parse_facets p g))) as [_ T2].
    destruct (Parse_facets_globals p g) as [_ T1].
    rewrite T2, T1, !length_app. lia.
Qed.

(** *** The count command *)

(** X11.  What the count command prints for its first argument.  When the
    file opens it prints one line only, the name and the count, and never
    an error text, whatever the parse has recorded; when the open fails it
    prints the text of the error and then the line with an empty name and
    the count -1. *)
Theorem X11_count_command_output
  (fs : FileSystem) (filepath : string) (more_args : list string)
  (g : globals) :
  countCmd_Run fs (filepath :: more_args) g =
  match fs filepath with
  | inl scanner =>
      let g1 := snd (Parse (newParser scanner) g) in
      Some ([(name g1 ++ " has " ++
              fmt_d (Z.of_nat (List.length (triangles g1))) ++
              " triangles " ++ newline)%string], g1)
  | inr e =>
      Some ([(Error e ++ newline)%string;
             (" has -1 triangles " ++ newline)%string], g)
  end.
Proof.
  unfold countCmd_Run.
  destruct (fs filepath) as [scanner|e] eqn:H.
  - now rewrite (CountTriangles_opened fs filepath g scanner H).
  - unfold CountTriangles, Reader. rewrite H. reflexivity.
Qed.

(** *** extractASCIIString on any bytes *)

Lemma ascii_split (bs : list byte) :
  exists nm tail,
    bs = nm ++ tail /\
    Forall (fun b => (Byte.to_N b < 128)%N /\ Byte.to_N b <> 0%N) nm /\
    (tail = [] \/
     exists b tl, tail = b :: tl /\
                  ((128 <= Byte.to_N b)%N \/ Byte.to_N b = 0%N)).
Proof.
  induction bs as [|b bs (nm & tail & -> & Hok & Hstop)].
  - exists [], []. auto.
  - destruct (N.ltb_spec (Byte.to_N b) 128) as [Hlt|Hge].
    + destruct (N.eq_dec (Byte.to_N b) 0) as [Hz|Hnz].
      * exists [], (b :: nm ++ tail). conj; auto. right. eauto.
      * exists (b :: nm), tail. conj; auto.
    + exists [], (b :: nm ++ tail). conj; auto. right. eauto.
Qed.

(** X12.  On any bytes, the string [extractASCIIString] returns is a prefix
    of the input, all of its bytes are between 1 and 127, and it is the
    longest such prefix: what is left of the input is empty or begins with
    a byte that is 0 or at least 128. *)
Theorem X12_extractASCIIString_longest_ascii_prefix (byteData : list byte) :
  exists tail,
    byteData = list_byte_of_string (extractASCIIString byteData) ++ tail /\
    Forall (fun b => (Byte.to_N b < 128)%N /\ Byte.to_N b <> 0%N)
           (list_byte_of_string (extractASCIIString byteData)) /\
    (tail = [] \/
     exists b tl, tail = b :: tl /\
                  ((128 <= Byte.to_N b)%N \/ Byte.to_N b = 0%N)).
Proof.
  destruct (ascii_split byteData) as (nm & tail & -> & Hok & Hstop).
  rewrite (extractASCIIString_spec nm tail Hok Hstop).
  rewrite list_byte_of_string_of_list_byte. exists tail. auto.
Qed.

(** *** Line breaks between words do not matter *)

Lemma same_words_head (p q : parser) :
  same_words p q -> eof p = eof q /\ currentWord p = currentWord q.
Proof.
  intros (C & Sp & Sq & _). unfold cursor in C.
  destruct (eof p) eqn:Ep, (eof q) eqn:Eq; simpl in C; try discriminate.
  - split; [reflexivity|]. now rewrite (Sp Ep), (Sq Eq).
  - injection C as -> _. auto.
Qed.

Lemma same_words_flags (p q p' q' : parser) :
  map snd (cursor p') = map snd (cursor q') ->
  settled p' -> settled q' ->
  moves p p' -> moves q q' -> same_words p q -> same_words p' q'.
Proof.
  intros C Sp Sq [[_ _ _ H1 _ _ _] S1] [[_ _ _ H2 _ _ _] S2]
         (_ & _ & _ & Hh & Hs).
  unfold same_words. conj; auto; congruence.
Qed.

Lemma map_snd_tl {A B : Type} (l : list (A * B)) :
  map snd (tl l) = tl (map snd l).
Proof. now destruct l. Qed.

Lemma nextWord_fst (p : parser) :
  fst (nextWord p) = negb (eof (snd (nextWord p))).
Proof.
  destruct (eof p) eqn:E.
  - rewrite nextWord_eof by assumption. simpl. now rewrite E.
  - destruct (nextWord p) as [more p'] eqn:N.
    destruct (nextWord_spec _ _ _ E N) as [_ St]. exact (st_more _ _ _ St).
Qed.

Lemma nextWord_same (p q : parser) :
  same_words p q ->
  same_words (snd (nextWord p)) (snd (nextWord q)) /\
  fst (nextWord p) = fst (nextWord q).
Proof.
  intros H. pose proof H as (C & Sp & Sq & _).
  assert (H' : same_words (snd (nextWord p)) (snd (nextWord q))).
  { apply (same_words_flags p q); auto using nextWord_settled, nextWord_moves.
    now rewrite !cursor_nextWord, !map_snd_tl, C. }
  split; [assumption|].
  rewrite !nextWord_fst. now destruct (same_words_head _ _ H') as [-> _].
Qed.

Lemma addError_same (m1 m2 : error) (p q : parser) :
  same_words p q -> same_words (addError m1 p) (addError m2 q).
Proof. auto. Qed.

Lemma set_TrianglesSkipped_same (b : bool) (p q : parser) :
  same_words p q ->
  same_words (set_TrianglesSkipped b p) (set_TrianglesSkipped b q).
Proof. intros (C & Sp & Sq & Hh & _). unfold same_words. now conj. Qed.

Lemma run_item_same (it : item) (p q : parser) (t : Triangle) :
  same_words p q ->
  fst (fst (run_item it p t)) = fst (fst (run_item it q t)) /\
  snd (run_item it p t) = snd (run_item it q t) /\
  same_words (snd (fst (run_item it p t))) (snd (fst (run_item it q t))).
Proof.
  intros H. destruct (same_words_head _ _ H) as [E W].
  destruct (nextWord_same _ _ H) as [Hn _].
  destruct it as [ident|f]; simpl.
  - unfold token, consumeToken. rewrite <- W.
    destruct (negb (MatchString (identRegexps ident) (currentWord p)));
      cbn [fst snd]; auto using addError_same.
  - unfold parseFloat32. rewrite <- E, <- W. destruct (eof p); [auto|].
    destruct (ParseFloat32 (currentWord p)); cbn [fst snd];
      auto using addError_same.
Qed.

Lemma run_items_same (its : list item) :
  forall p q t,
    same_words p q ->
    fst (fst (run_items its p t)) = fst (fst (run_items its q t)) /\
    snd (run_items its p t) = snd (run_items its q t) /\
    same_words (snd (fst (run_items its p t)))
               (snd (fst (run_items its q t))).
Proof.
  induction its as [|it its IH]; intros p q t H; simpl; [auto|].
  unfold andthen.
  destruct (run_item_same it p q t H) as (H1 & H2 & H3).
  destruct (run_item it p t) as [[ok1 p1] t1].
  destruct (run_item it q t) as [[ok2 q1] t2].
  cbn [fst snd] in *. subst ok2 t2.
  destruct ok1; [now apply IH|auto].
Qed.

Lemma skipToToken_same (n : nat) :
  forall p q,
    (List.length (upcoming p) < n)%nat ->
    same_words p q ->
    fst (skipToToken sync p) = fst (skipToToken sync q) /\
    same_words (snd (skipToToken sync p)) (snd (skipToToken sync q)).
Proof.
  induction n as [|n IH]; intros p q Hn H; [lia|].
  rewrite (skipToToken_unfold sync p), (skipToToken_unfold sync q).
  pose proof (skipToToken_iter_decreasing sync p) as Hd.
  unfold skipToToken_iter in *.
  destruct (same_words_head _ _ H) as [_ W]. rewrite <- W.
  destruct (MatchString (identRegexps sync) (currentWord p)).
  - destruct (Z.eqb sync (Z.lor idFacet idEndsolid));
      [destruct (MatchString _ _)|]; auto.
  - destruct (nextWord_same _ _ H) as [Hs Hf].
    destruct (nextWord p) as [more p1], (nextWord q) as [more' q1].
    cbn [fst snd] in *. subst more'.
    destruct more; cbn [negb]; [|auto].
    apply IH; [|assumption]. specialize (Hd p1 eq_refl). lia.
Qed.

Lemma TriangleLoop_iter_same (p q : parser) (g : globals) :
  same_words p q ->
  match TriangleLoop_iter (p, g), TriangleLoop_iter (q, g) with
  | inl (p', g1), inl (q', g2) => g1 = g2 /\ same_words p' q'
  | inr (p', g1), inr (q', g2) => g1 = g2 /\ same_words p' q'
  | _, _ => False
  end.
Proof.
  intros H. destruct (same_words_head _ _ H) as [E W].
  unfold TriangleLoop_iter, isCurrentTokenIdent. fold sync.
  rewrite <- E, <- W.
  destruct (negb (eof p) &&
            negb (MatchString (identRegexps idEndsolid) (currentWord p)));
    [|auto].
  assert (Hfacet : forall p1 q1,
    same_words p1 q1 ->
    match
      (let '(ok, p2, t) := parseFacet p1 Triangle_zero in
       if ok then @inl _ (parser * globals) (p2, append_triangle t g)
       else inl (snd (skipToToken sync (set_TrianglesSkipped true p2)), g)),
      (let '(ok, p2, t) := parseFacet q1 Triangle_zero in
       if ok then @inl _ (parser * globals) (p2, append_triangle t g)
       else inl (snd (skipToToken sync (set_TrianglesSkipped true p2)), g))
    with
    | inl (p', g1), inl (q', g2) => g1 = g2 /\ same_words p' q'
    | inr (p', g1), inr (q', g2) => g1 = g2 /\ same_words p' q'
    | _, _ => False
    end).
  { intros p1 q1 H1. rewrite !parseFacet_items.
    destruct (run_items_same facet_grammar p1 q1 Triangle_zero H1)
      as (R1 & R2 & R3).
    destruct (run_items facet_grammar p1 Triangle_zero) as [[ok1 p2] t1].
    destruct (run_items facet_grammar q1 Triangle_zero) as [[ok2 q2] t2].
    cbn [fst snd] in *. subst ok2 t2.
    destruct ok1; [auto|]. split; [reflexivity|].
    apply (skipToToken_same _ _ _ (Nat.lt_succ_diag_r _)).
    now apply set_TrianglesSkipped_same. }
  destruct (negb (MatchString (identRegexps idFacet) (currentWord p)));
    [|now apply Hfacet].
  destruct (skipToToken_same _ _ _ (Nat.lt_succ_diag_r _)
              (addError_same ErrInvalidExpectedToken ErrInvalidExpectedToken
                 _ _ H)) as [Hf Hs].
  destruct (skipToToken sync (addError ErrInvalidExpectedToken p))
    as [found p1].
  destruct (skipToToken sync (addError ErrInvalidExpectedToken q))
    as [found' q1].
  cbn [fst snd] in *. subst found'.
  destruct (Z.eqb found idEndsolid || Z.eqb found idNone); [auto|].
  now apply Hfacet.
Qed.

Lemma TriangleLoop_same (p : parser) :
  forall q g,
    same_words p q ->
    snd (TriangleLoop p g) = snd (TriangleLoop q g) /\
    same_words (fst (TriangleLoop p g)) (fst (TriangleLoop q g)).
Proof.
  remember (List.length (cursor p)) as n eqn:Hn.
  revert p Hn. induction n as [n IH] using lt_wf_ind. intros p Hn q g H.
  rewrite (TriangleLoop_unfold p g), (TriangleLoop_unfold q g).
  pose proof (TriangleLoop_iter_same p q g H) as It.
  destruct (TriangleLoop_iter (p, g)) as [[p' g1]|[p' g1]] eqn:I1;
    destruct (TriangleLoop_iter (q, g)) as [[q' g2]|[q' g2]] eqn:I2;
    try contradiction; destruct It as [<- Hs].
  - apply TriangleLoop_iter_decreasing in I1. cbn [fst] in I1.
    apply (IH (List.length (cursor p'))); [lia|reflexivity|assumption].
  - auto.
Qed.

Lemma newParser_on_header
  (lines : Scanner (list byte)) (hdr : list byte) (body : list (list byte)) :
  pending lines = hdr :: body ->
  ScanWords hdr <> [] ->
  let p := newParser lines in
  eof p = false /\ currentLine p = hdr /\ line p = 1 /\
  pending (lineScanner p) = body /\
  HeaderError p = false /\ TrianglesSkipped p = false.
Proof.
  intros Hpend Hwords.
  destruct (ScanWords hdr) as [|w ws] eqn:Hw; [contradiction|].
  unfold newParser, nextLine. simpl. rewrite Hpend. simpl.
  unfold nextWord_with, Scan. simpl. rewrite Hw. simpl. conj; auto.
Qed.

(** X13.  Two inputs with the same header line, whose following lines hold
    the same words in the same order, however the words are spread over
    the lines and whether or not the sources fail at their ends, give the
    same result, the same name and the same triangle list. *)
Theorem X13_result_depends_on_words_only
  (lines1 lines2 : Scanner (list byte)) (g : globals)
  (hdr : list byte) (body1 body2 : list (list byte)) :
  pending lines1 = hdr :: body1 ->
  pending lines2 = hdr :: body2 ->
  ScanWords hdr <> [] ->
  flat_map ScanWords body1 = flat_map ScanWords body2 ->
  fst (fst (Parse (newParser lines1) g)) =
    fst (fst (Parse (newParser lines2) g)) /\
  snd (Parse (newParser lines1) g) = snd (Parse (newParser lines2) g).
Proof.
  intros P1 P2 Hw Hb.
  destruct (newParser_on_header lines1 hdr body1 P1 Hw)
    as (E1 & L1 & N1 & B1 & Hh1 & Hs1).
  destruct (newParser_on_header lines2 hdr body2 P2 Hw)
    as (E2 & L2 & N2 & B2 & Hh2 & Hs2).
  set (p1 := newParser lines1) in *. set (p2 := newParser lines2) in *.
  assert (Hentry :
    snd (loop_entry p1 g) = snd (loop_entry p2 g) /\
    same_words (fst (loop_entry p1 g)) (fst (loop_entry p2 g))).
  { unfold loop_entry, parseASCIIHeaderLine. rewrite E1, E2, L1, L2.
    assert (Hnext : forall q1 q2 b,
      eof q1 = false -> eof q2 = false ->
      line q1 = 1 -> line q2 = 1 ->
      pending (lineScanner q1) = body1 -> pending (lineScanner q2) = body2 ->
      TrianglesSkipped q1 = false -> TrianglesSkipped q2 = false ->
      same_words (set_HeaderError b (snd (nextLine q1)))
                 (set_HeaderError b (snd (nextLine q2)))).
    { intros q1 q2 b Eq1 Eq2 Lq1 Lq2 Bq1 Bq2 Sq1 Sq2.
      pose proof (nextLine_settled q1 Eq1) as St1.
      pose proof (nextLine_settled q2 Eq2) as St2.
      destruct (nextLine q1) as [m1 r1] eqn:NL1.
      destruct (nextLine q2) as [m2 r2] eqn:NL2.
      unfold nextLine in NL1, NL2.
      destruct (nextLine_from_spec _ _ _ _ Eq1 eq_refl NL1)
        as (C1 & _ & _ & _ & S1 & _).
      destruct (nextLine_from_spec _ _ _ _ Eq2 eq_refl NL2)
        as (C2 & _ & _ & _ & S2 & _).
      cbn [snd] in *. unfold same_words.
      change (cursor (set_HeaderError b r1)) with (cursor r1).
      change (cursor (set_HeaderError b r2)) with (cursor r2).
      rewrite C1, C2, Bq1, Bq2, !map_snd_numbered.
      conj; auto. simpl. congruence. }
    destruct (negb (HasPrefix hdr expectedASCIIHeaderPrefix));
      cbn [fst snd]; split; try reflexivity; apply Hnext; auto. }
  destruct Hentry as [Hg Hsame].
  assert (Hpf :
    snd (Parse_facets p1 g) = snd (Parse_facets p2 g) /\
    same_words (fst (Parse_facets p1 g)) (fst (Parse_facets p2 g))).
  { rewrite !Parse_facets_entry by assumption. rewrite <- Hg.
    now apply TriangleLoop_same. }
  destruct Hpf as [Hg' Hs'].
  rewrite !Parse_snd. split; [|assumption].
  unfold Parse.
  destruct (Parse_facets p1 g) as [r1 h1], (Parse_facets p2 g) as [r2 h2].
  cbn [fst snd] in *.
  destruct (same_words_head _ _ Hs') as [_ W].
  destruct Hs' as (_ & _ & _ & Hh & Hs).
  unfold terminator_check. rewrite !consumeToken_endsolid, Hh, Hs, W.
  destruct (negb (HeaderError r2)), (negb (TrianglesSkipped r2)); auto.
  now destruct (String.eqb (currentWord r2) "endsolid").
Qed.

(** *** The terminator is consumed *)

Lemma Parse_facets_settled (p : parser) (g : globals) :
  (eof p = true -> HeaderError (fst (Parse_facets p g)) = true) /\
  (eof p = false -> settled (fst (Parse_facets p g))).
Proof.
  split; intros E.
  - unfold Parse_facets. now rewrite E.
  - rewrite Parse_facets_entry by assumption.
    apply TriangleLoop_settled. now apply loop_entry_facts.
Qed.

(** C6.  With [p1] the parser after the triangle loop, [Parse] returns
    true exactly when [HeaderError] and [TrianglesSkipped] are both false
    and the current word is [endsolid]; in that case the word is consumed:
    the parser returned is [p1] advanced by one word, and the tokens ahead
    of [p1] are the [endsolid] token, on the line of [p1], followed by the
    tokens ahead of the parser returned.  The triangle list plays no part:
    it is returned as the loop left it. *)
Theorem C6_success_iff_flags_clear_and_endsolid (p : parser) (g : globals) :
  let p1 := fst (Parse_facets p g) in
  let success := fst (fst (Parse p g)) in
  (success = true <->
   HeaderError p1 = false /\ TrianglesSkipped p1 = false /\
   currentWord p1 = "endsolid") /\
  (success = true ->
   snd (fst (Parse p g)) = snd (nextWord p1) /\
   cursor p1 = (line p1, "endsolid") :: cursor (snd (fst (Parse p g)))) /\
  snd (Parse p g) = snd (Parse_facets p g).
Proof.
  destruct (Parse_facets_settled p g) as [Heof Hlive].
  unfold Parse. destruct (Parse_facets p g) as [p1 g1]. cbn [fst snd] in *.
  cbv zeta. unfold terminator_check. rewrite consumeToken_endsolid.
  destruct (HeaderError p1) eqn:Hh; cbn [negb fst snd].
  { split; [split; [discriminate|intros (A & _); discriminate A]|].
    split; [discriminate|reflexivity]. }
  destruct (TrianglesSkipped p1) eqn:Hs; cbn [negb fst snd].
  { split; [split; [discriminate|intros (_ & A & _); discriminate A]|].
    split; [discriminate|reflexivity]. }
  destruct (String.eqb (currentWord p1) "endsolid") eqn:W; cbn [fst snd].
  - apply String.eqb_eq in W.
    split; [split; auto|]. split; [|reflexivity].
    intros _. split; [reflexivity|].
    rewrite <- W. apply nextWord_shrinks.
    (* the loop leaves the current word empty at the end of the stream *)
    destruct (eof p) eqn:E; [specialize (Heof eq_refl); discriminate Heof|].
    specialize (Hlive eq_refl).
    destruct (eof p1) eqn:E1; [|reflexivity].
    rewrite (Hlive E1) in W. discriminate W.
  - apply String.eqb_neq in W.
    split; [split; [discriminate|intros (_ & _ & A); contradiction]|].
    split; [discriminate|reflexivity].
Qed.

(** *** Malformed facets *)




(** *** A header line without the prefix *)

(** X3.  The first line of the input holds a word but does not begin with
    [solid ]; the lines that follow begin with N well-formed facet blocks,
    and anything may come after them.  Then [Parse] returns false with
    [HeaderError] set, the name keeps the value it had before the parse,
    and the N triangles of the blocks are appended to the triangle list all
    the same (followed by whatever the rest of the input adds).  When the
    blocks are followed by [endsolid], the list is exactly the old one
    followed by the N triangles and the error value is the syntax error of
    line 1. *)
Theorem X3_missing_prefix_fails_and_keeps_name
  (lines : Scanner (list byte)) (g : globals)
  (hdr : list byte) (body : list (list byte))
  (fs : list facet_text) (ts : list Triangle)
  (btoks rest : list (Z * string)) :
  failure lines = None ->
  pending lines = hdr :: body ->
  HasPrefix hdr expectedASCIIHeaderPrefix = false ->
  ScanWords hdr <> [] ->
  numbered 1 body = btoks ++ rest ->
  map snd btoks = flat_map facet_words fs ->
  Forall2 (fun f t => facet_value f = Some t) fs ts ->
  let '(success, p', g') := Parse (newParser lines) g in
  success = false /\
  HeaderError p' = true /\
  name g' = name g /\
  (exists more, triangles g' = triangles g ++ ts ++ more) /\
  (forall m trailing,
     rest = (m, "endsolid") :: trailing ->
     triangles g' = triangles g ++ ts /\
     errors p' = Some (Joined [Errorf_line 1 ErrInvalidSintax])).
Proof.
  intros Hfail Hpend Hprefix Hwords Hbody Hbt Hvalues.
  destruct (newParser_on_header lines hdr body Hpend Hwords)
    as (E0 & L0 & N0 & Pb & Hh0 & Hs0).
  destruct (newParser_spec lines) as (_ & _ & Fw & Fl & _).
  set (p0 := newParser lines) in *.
  (* the header is refused and the next line read *)
  set (q := addError ErrInvalidSintax p0).
  pose proof (nextLine_settled q E0) as S1.
  destruct (nextLine q) as [more1 r] eqn:NL.
  pose proof NL as NL'. unfold nextLine in NL'.
  destruct (nextLine_from_spec _ _ _ _ (E0 : eof q = false) eq_refl NL')
    as (C1 & _ & _ & Hh1 & Hs1 & Fl1 & Fw1 & Er1 & _).
  cbn [snd] in S1.
  set (p2 := set_HeaderError true r).
  assert (Hentry : loop_entry p0 g = (p2, g)).
  { unfold loop_entry, parseASCIIHeaderLine. rewrite E0, L0, Hprefix.
    cbn [negb]. fold q. now rewrite NL. }
  assert (Cl2 : clean p2).
  { split; [apply Fw1, Fw|]. simpl. rewrite Fl1. simpl. congruence. }
  assert (C2 : cursor p2 = btoks ++ rest).
  { change (cursor p2) with (cursor r). rewrite C1. simpl.
    now rewrite Pb, N0. }
  destruct (wellformed_blocks_iterate fs ts btoks rest p2 g
              Hvalues C2 Hbt Cl2 S1)
    as (p' & g' & I & I1 & I2 & I3 & I4 & I5 & I6 & I7 & I8).
  assert (PF : Parse_facets p0 g = TriangleLoop p' g').
  { rewrite Parse_facets_entry, Hentry by assumption.
    exact (iterates_TriangleLoop _ _ I). }
  assert (Er' : errors p' = Some (Joined [Errorf_line 1 ErrInvalidSintax])).
  { rewrite I4. simpl. rewrite Er1.
    - simpl. now rewrite N0.
    - right. simpl. congruence. }
  destruct (TriangleLoop_forward p' g') as (F & Nm & more & T).
  pose proof (fw_header _ _ F) as Hh. rewrite I5 in Hh. cbn in Hh.
  unfold Parse. rewrite PF.
  assert (Hend : forall m trailing,
             rest = (m, "endsolid") :: trailing ->
             TriangleLoop p' g' = (p', g')).
  { intros m trailing ->.
    apply cursor_cons_inv in I1 as (_ & _ & W & _).
    now rewrite TriangleLoop_unfold, TriangleLoop_iter_at_endsolid. }
  destruct (TriangleLoop p' g') as [pf gf] eqn:TL. cbn [fst snd] in *.
  unfold terminator_check. rewrite Hh. cbn [negb]. conj; auto.
  - congruence.
  - exists more. rewrite T, I8. now rewrite <- app_assoc.
  - intros m trailing Hr. specialize (Hend m trailing Hr).
    injection Hend as -> ->. auto.
Qed.

End Properties.

(** ** Concrete runs *)

Import Ascii7.

(** C1.  On the file of the two lines [foo] and [bar] two errors are
    detected: the missing header prefix on line 1, which is the error value
    when the triangle loop is entered, and the unexpected word on line 2.
    The error value at the end of [Parse] holds the second alone, because
    [addError] replaces the value by the join of the new error only,
    whatever was recorded before. *)
Theorem C1_later_error_replaces_earlier :
  let p0 := newParser garbage_file in
  errors (fst (loop_entry p0 globals_init)) =
    Some (Joined [Errorf_line 1 ErrInvalidSintax]) /\
  errors (snd (fst (Parse p0 globals_init))) =
    Some (Joined [Errorf_line 2 ErrInvalidExpectedToken]) /\
  (forall (msg : error) (p : parser),
     errors (addError msg p) = Some (Joined [Errorf_line (line p) msg])).
Proof. repeat split. Qed.

(** C2.  Two successive calls of [CountTriangles] on the same one-facet
    file, the second starting from the package variables the first left:
    the first returns 1 triangle, the second 2. *)
Theorem C2_second_parse_counts_twice :
  let first := CountTriangles (disk cube_file) "cube.stl" globals_init in
  let second := CountTriangles (disk cube_file) "cube.stl" (snd first) in
  fst first = ("cube", 1, None) /\ fst second = ("cube", 2, None).
Proof. vm_compute. split; reflexivity. Qed.

(** C3.  On the empty file, which opens, [Parse] returns false and records
    the empty-input error, and [CountTriangles] returns a nil error. *)
Theorem C3_error_dropped_on_empty_file :
  fst (fst (Parse (newParser empty_file) globals_init)) = false /\
  errors (snd (fst (Parse (newParser empty_file) globals_init))) =
    Some (Joined [Errorf_line 0 ErrEOF]) /\
  fst (CountTriangles (disk empty_file) "empty.stl" globals_init) =
    ("", 0, None).
Proof. vm_compute. repeat split. Qed.

(** When the open fails the count [CountTriangles] returns is -1, which is
    not a non-negative integer. *)
Lemma C4_negative_count_on_failed_open :
  ~ 0 <= snd (fst (fst (CountTriangles no_disk "missing.stl" globals_init))).
Proof. vm_compute. intros H. now apply H. Qed.

(** The one-facet file is well formed: its parse succeeds with the one
    triangle and no error. *)
Lemma C5_witness_cube_file :
  let '(success, p', g') := Parse (newParser cube_file) globals_init in
  success = true /\
  triangles g' =
    triangles globals_init ++
    [tri (0, 0, 1) (0, 0, 0) (1, 0, 0) (0, 1, 0)] /\
  (triangles globals_init = [] -> List.length (triangles g') = 1%nat) /\
  errors p' = None /\
  HeaderError p' = false /\ TrianglesSkipped p' = false.
Proof.
  apply (C5_well_formed_input_parses_clean
           cube_file globals_init
           (list_byte_of_string "solid cube")
           (tl (pending cube_file))
           [{| text_normal := ("0", "0", "1");
               text_vertex1 := ("0", "0", "0");
               text_vertex2 := ("1", "0", "0");
               text_vertex3 := ("0", "1", "0") |}]
           [tri (0, 0, 1) (0, 0, 0) (1, 0, 0) (0, 1, 0)]
           ["cube"]).
  - reflexivity.
  - reflexivity.
  - reflexivity.
  - discriminate.
  - reflexivity.
  - repeat constructor.
Defined.

(** Skipping and parsing on the one-facet file, with fuel 100. *)
Lemma C8_witness_cube_file :
  let p := newParser cube_file in
  let g := globals_init in
  loop 100 (skipToToken_iter sync) p = Some (skipToToken sync p) /\
  found_at (fst (skipToToken sync p)) (snd (skipToToken sync p)) /\
  forward p (snd (skipToToken sync p)) /\
  (eof p = false -> cursor (snd (skipToToken sync p)) = resync (cursor p)) /\
  loop 100 TriangleLoop_iter (loop_entry p g) =
    Some (TriangleLoop (fst (loop_entry p g)) (snd (loop_entry p g))) /\
  (forall s s', TriangleLoop_iter s = inl s' ->
     (List.length (cursor (fst s')) < List.length (cursor (fst s)))%nat) /\
  (eof p = false ->
   cursor p = (line p, currentWord p) :: cursor (snd (nextWord p))) /\
  line p <= line (snd (nextWord p)) /\
  progress p (snd (fst (Parse p g))).
Proof.
  apply (C8_skip_and_parse_terminate
           cube_file globals_init (newParser cube_file) 100).
  - vm_compute. lia.
  - vm_compute. lia.
Defined.

(** The name of the header [solid ab<0x80>cd] is [ab]. *)
Lemma C9_witness_high_byte :
  fst (fst (parseASCIIHeaderLine (newParser high_byte_file) globals_init))
    = true /\
  name (snd (parseASCIIHeaderLine (newParser high_byte_file) globals_init))
    = "ab" /\
  name (snd (Parse (newParser high_byte_file) globals_init)) = "ab".
Proof.
  apply (C9_name_stops_at_first_non_ascii_byte
           (newParser high_byte_file) globals_init
           (list_byte_of_string "ab")
           (Byte.x80 :: list_byte_of_string "cd")).
  - reflexivity.
  - reflexivity.
  - repeat constructor; discriminate.
  - right. exists Byte.x80, (list_byte_of_string "cd").
    split; [reflexivity|left; discriminate].
Defined.

(** On [lop_file] a facet is skipped, so the [endsolid] the loop stops on
    is left in place. *)
Lemma C10_witness_lop_file :
  Parse (newParser lop_file) globals_init =
    (false, fst (Parse_facets (newParser lop_file) globals_init),
     snd (Parse_facets (newParser lop_file) globals_init)) /\
  currentWord (snd (fst (Parse (newParser lop_file) globals_init))) =
    currentWord (fst (Parse_facets (newParser lop_file) globals_init)) /\
  cursor (snd (fst (Parse (newParser lop_file) globals_init))) =
    cursor (fst (Parse_facets (newParser lop_file) globals_init)) /\
  errors (snd (fst (Parse (newParser lop_file) globals_init))) =
    errors (fst (Parse_facets (newParser lop_file) globals_init)).
Proof.
  apply (C10_terminator_check_short_circuits
           (newParser lop_file) globals_init).
  right. reflexivity.
Defined.

(** The two blank lines of [blank_file] give the empty-input error at
    line 2. *)
Lemma X2_witness_blank_file :
  let '(success, p', g') := Parse (newParser blank_file) globals_init in
  success = false /\ g' = globals_init /\ HeaderError p' = true /\
  errors p' =
    Some (Joined [Errorf_line (Z.of_nat (List.length (pending blank_file)))
                              ErrEOF]).
Proof.
  apply (X2_input_without_words blank_file globals_init).
  repeat constructor.
Defined.

(** The facet of [cube_file], parsed from the state after the header. *)
Lemma X4_witness_cube_file :
  exists f toks,
    cursor (fst (loop_entry (newParser cube_file) globals_init)) =
      toks ++
      cursor (snd (fst (parseFacet
                          (fst (loop_entry (newParser cube_file)
                                           globals_init))
                          Triangle_zero))) /\
    map snd toks = facet_words f /\
    facet_value f = Some (tri (0, 0, 1) (0, 0, 0) (1, 0, 0) (0, 1, 0)).
Proof.
  apply (X4_parseFacet_succeeds_only_on_well_formed_block
           (fst (loop_entry (newParser cube_file) globals_init))
           (snd (fst (parseFacet
                        (fst (loop_entry (newParser cube_file) globals_init))
                        Triangle_zero)))
           (tri (0, 0, 1) (0, 0, 0) (1, 0, 0) (0, 1, 0))).
  - intros H. discriminate H.
  - vm_compute. reflexivity.
Defined.

(** [unterminated_file]: the triangle is appended and the parse fails on
    the missing [endsolid]. *)
Lemma X6_witness_unterminated_file :
  let '(success, p', g') :=
    Parse (newParser unterminated_file) globals_init in
  success = false /\
  triangles g' =
    triangles globals_init ++ [tri (0, 0, 1) (0, 0, 0) (1, 0, 0) (0, 1, 0)] /\
  HeaderError p' = false /\ TrianglesSkipped p' = false /\
  errors p' =
    Some (Joined [Errorf_line (line p')
                    (Errorf_ident errInvalidToken "endsolid")]).
Proof.
  apply (X6_missing_endsolid_fails_after_appending
           unterminated_file globals_init
           (list_byte_of_string "solid cube")
           (tl (pending unterminated_file))
           [{| text_normal := ("0", "0", "1");
               text_vertex1 := ("0", "0", "0");
               text_vertex2 := ("1", "0", "0");
               text_vertex3 := ("0", "1", "0") |}]
           [tri (0, 0, 1) (0, 0, 0) (1, 0, 0) (0, 1, 0)]).
  - reflexivity.
  - reflexivity.
  - reflexivity.
  - discriminate.
  - reflexivity.
  - repeat constructor.
Defined.

(** [cut_file] ends where a coordinate is due: the parse fails and the
    error value is nil. *)
Lemma X7_witness_cut_file :
  let '(success, p', g') := Parse (newParser cut_file) globals_init in
  success = false /\
  TrianglesSkipped p' = true /\ eof p' = true /\
  triangles g' = triangles globals_init ++ [] /\
  errors p' =
    match Coord (elem addr_Normal 2) with
    | Coord _ => None
    | K ident =>
        Some (Joined [Errorf_line (line p')
                        (Errorf_ident errInvalidToken (idents ident))])
    end.
Proof.
  apply (X7_facet_cut_short_by_end_of_input
           cut_file globals_init
           (list_byte_of_string "solid x")
           (tl (pending cut_file))
           [] [] []
           [(2, "normal"); (2, "0"); (2, "0")] 2
           (firstn 3 (tl facet_grammar)) (skipn 5 facet_grammar)
           (Coord (elem addr_Normal 2))).
  - reflexivity.
  - reflexivity.
  - reflexivity.
  - discriminate.
  - reflexivity.
  - reflexivity.
  - constructor.
  - reflexivity.
  - repeat constructor.
Defined.

(** [stray_file]: the parse succeeds and the error value holds the error
    of line 2. *)
Lemma X8_witness_stray_file :
  let '(success, p', g') := Parse (newParser stray_file) globals_init in
  success = true /\
  HeaderError p' = false /\ TrianglesSkipped p' = false /\
  triangles g' = triangles globals_init ++ [] /\
  errors p' = Some (Joined [Errorf_line 2 ErrInvalidExpectedToken]).
Proof.
  apply (X8_stray_words_are_reported_without_failing
           stray_file globals_init
           (list_byte_of_string "solid x")
           (tl (pending stray_file))
           [] [] []
           [(2, "world")] [] 2 3 "hello").
  - reflexivity.
  - reflexivity.
  - reflexivity.
  - discriminate.
  - reflexivity.
  - reflexivity.
  - constructor.
  - repeat constructor.
Defined.

(** Two calls on [cube_file] from the initial package variables. *)
Lemma X10_witness_cube_file :
  let first := CountTriangles (disk cube_file) "cube.stl" globals_init in
  let second := CountTriangles (disk cube_file) "cube.stl" (snd first) in
  fst (fst (fst second)) = fst (fst (fst first)) /\
  snd (fst second) = None /\ snd (fst first) = None /\
  snd (fst (fst second)) - snd (fst (fst first)) =
    snd (fst (fst first)) -
    Z.of_nat (List.length (triangles globals_init)).
Proof.
  apply (X10_each_call_adds_the_file_again
           (disk cube_file) "cube.stl" globals_init cube_file).
  reflexivity.
Defined.

(** [cube_file] and [cube_one_line] hold the same words after the same
    header line. *)
Lemma X13_witness_cube_layouts :
  fst (fst (Parse (newParser cube_file) globals_init)) =
    fst (fst (Parse (newParser cube_one_line) globals_init)) /\
  snd (Parse (newParser cube_file) globals_init) =
    snd (Parse (newParser cube_one_line) globals_init).
Proof.
  apply (X13_result_depends_on_words_only
           cube_file cube_one_line globals_init
           (list_byte_of_string "solid cube")
           (tl (pending cube_file)) (tl (pending cube_one_line))).
  - reflexivity.
  - reflexivity.
  - discriminate.
  - reflexivity.
Defined.



(** [headless_file]: the first line is [cube]; the facet that follows is
    appended although the parse fails. *)
Lemma X3_witness_headless_file :
  let '(success, p', g') := Parse (newParser headless_file) globals_init in
  success = false /\
  HeaderError p' = true /\
  name g' = name globals_init /\
  (exists more,
     triangles g' =
     triangles globals_init ++
     [tri (0, 0, 1) (0, 0, 0) (1, 0, 0) (0, 1, 0)] ++ more) /\
  (forall m trailing,
     skipn 21 (numbered 1 (tl (pending headless_file))) =
       (m, "endsolid") :: trailing ->
     triangles g' =
       triangles globals_init ++
       [tri (0, 0, 1) (0, 0, 0) (1, 0, 0) (0, 1, 0)] /\
     errors p' = Some (Joined [Errorf_line 1 ErrInvalidSintax])).
Proof.
  apply (X3_missing_prefix_fails_and_keeps_name
           headless_file globals_init
           (list_byte_of_string "cube")
           (tl (pending headless_file))
           [{| text_normal := ("0", "0", "1");
               text_vertex1 := ("0", "0", "0");
               text_vertex2 := ("1", "0", "0");
               text_vertex3 := ("0", "1", "0") |}]
           [tri (0, 0, 1) (0, 0, 0) (1, 0, 0) (0, 1, 0)]
           (firstn 21 (numbered 1 (tl (pending headless_file))))
           (skipn 21 (numbered 1 (tl (pending headless_file))))).
  - reflexivity.
  - reflexivity.
  - reflexivity.
  - discriminate.
  - reflexivity.
  - reflexivity.
  - repeat constructor.
Defined.
